(** * The agent-coordination server of the scheduler

    A shallow embedding of [scheduler/pkg/agent/server.go]: the registry of
    connected replicas ([Server.agents]), the reconciliation pass
    ([Server.Sync]), the report ingestion ([Server.AgentEvent]) and the
    connection handler ([Server.Subscribe], [Server.syncMessage]).

    The store, the scheduler and the gRPC stream are Go interfaces whose
    implementations live outside the agent package; they are type classes
    here, over one abstract environment.  Every call the server makes on them is
    recorded, with its outcome, in a list of calls, and every log line in a
    list of log entries, so that the properties of the server are statements
    about what it calls, in which order, and with which arguments. *)

From stdpp Require Import base gmap list strings countable.

Local Open Scope string_scope.
Local Open Scope list_scope.
Local Open Scope Z_scope.

(** ** Data model *)

(** Go's [error] interface, observed through [err.Error()]. *)
Definition error := string.

(** [uint32(x)] for an [int] x: conversion wraps modulo 2^32. *)
Definition uint32 (x : Z) : Z := x `mod` 2 ^ 32.

(** Modelled from the spec: the [store.ModelReplicaState] enum is declared in
    the store package; the replica states are those of the data model. *)
Inductive ModelReplicaState :=
| ModelReplicaStateUnknown
| LoadRequested
| Loading
| Loaded
| LoadFailed
| UnloadRequested
| Unloading
| Unloaded.

#[global] Instance ModelReplicaState_eq_dec : EqDecision ModelReplicaState.
Proof. solve_decision. Defined.

(** Modelled from the spec: the event kinds of [pb.ModelEventMessage].  The
    generated Go type is an open int32 enum: [EVENT_OTHER] stands for every
    wire value that is none of the four named kinds. *)
Inductive EventType :=
| LOADED
| UNLOADED
| LOAD_FAILED
| LOAD_FAIL_MEMORY
| EVENT_OTHER (code : Z).

Inductive Operation := LOAD_MODEL | UNLOAD_MODEL.

#[global] Instance Operation_eq_dec : EqDecision Operation.
Proof. solve_decision. Defined.

(** Modelled from the spec: [pb.Model], the model definition carried by a
    command; only its name is observed. *)
Record pb_Model := { pb_Name : string }.

Record pb_ModelVersion := { pbModel : pb_Model; pbVersion : Z }.

Record ModelOperationMessage :=
  { Operation_ : Operation; ModelVersion_ : pb_ModelVersion }.

Record ModelEventMessage :=
  { ev_ServerName : string;
    ev_ReplicaIdx : Z;
    ev_ModelName : string;
    ev_ModelVersion : Z;
    ev_Event : EventType;
    ev_Message : string;
    ev_AvailableMemoryBytes : Z }.

Record ModelEventResponse := { }.

(** [pb.AgentSubscribeRequest], with the fields the server reads; the rest of
    the request is only handed on to the store. *)
Record AgentSubscribeRequest :=
  { req_ServerName : string;
    req_ReplicaIdx : Z }.

(** The gRPC status codes of [google.golang.org/grpc/codes], and the error
    built by [status.Error(code, msg)]. *)
Inductive Code :=
| OK | Canceled | Unknown | InvalidArgument | DeadlineExceeded | NotFound
| AlreadyExists | PermissionDenied | ResourceExhausted | FailedPrecondition
| Aborted | OutOfRange | Unimplemented | Internal | Unavailable | DataLoss
| Unauthenticated.

Record Status := { st_code : Code; st_msg : string }.

Record ServerKey := { serverName : string; replicaIdx : Z }.

#[global] Instance ServerKey_eq_dec : EqDecision ServerKey.
Proof. solve_decision. Defined.

#[global] Instance ServerKey_countable : Countable ServerKey.
Proof.
  refine (inj_countable' (fun k => (serverName k, replicaIdx k))
                         (fun p => {| serverName := p.1; replicaIdx := p.2 |}) _).
  by intros [].
Defined.

(** A stream handle and a channel are identified by a number. *)
Definition StreamId := nat.
Definition ChanId := nat.

Record AgentSubscriber := { finished : ChanId; stream : StreamId }.

(** Modelled from the spec: [store.ModelVersion], an immutable descriptor
    (model definition, version number, the server it is placed on) together
    with the per-replica state table, a Go map from replica index to state. *)
Record ModelVersion :=
  { modelDefn : pb_Model;
    version : Z;
    server : string;
    replicas : gmap Z ModelReplicaState }.

Definition GetModel_ (mv : ModelVersion) : pb_Model := modelDefn mv.
Definition GetVersion (mv : ModelVersion) : Z := version mv.
Definition Server_ (mv : ModelVersion) : string := server mv.
Definition Key (mv : ModelVersion) : string := pb_Name (modelDefn mv).

(** Modelled from the spec: [ModelVersion.GetReplicaForState], the indices of
    the replicas whose entry in the state table is [st].  Go ranges over a
    map in no fixed order; the list comes in the order of [map_to_list], and
    the properties below rest on membership only
    ([elem_of_GetReplicaForState]). *)
Definition GetReplicaForState (mv : ModelVersion) (st : ModelReplicaState) : list Z :=
  (map_to_list (filter (fun kv => kv.2 = st) (replicas mv))).*1.

(** Modelled from the spec: the model returned by [store.GetModel], the list
    of its tracked versions, oldest first; the latest is the last one. *)
Record Model := { Versions : list ModelVersion }.

Definition GetLatest (m : Model) : option ModelVersion := list.last (Versions m).

(** ** The collaborators

    [store.SchedulerStore], [scheduler.Scheduler] and the stream of a
    subscription are interfaces.  Each method takes the environment and
    returns the environment it leaves, next to its Go results. *)

Class SchedulerStore (Env : Type) :=
  { store_GetModel : string -> Env -> Env * (option Model * option error);
    store_UpdateModelState :
      string -> Z -> string -> Z -> option Z -> ModelReplicaState -> string ->
      Env -> Env * option error;
    store_AddServerReplica : AgentSubscribeRequest -> Env -> Env * option error;
    store_RemoveServerReplica : string -> Z -> Env -> Env * (list string * option error) }.

Class Scheduler (Env : Type) :=
  { scheduler_Schedule : string -> Env -> Env * option error;
    scheduler_ScheduleFailedModels : Env -> Env * (Z * option error) }.

Class SubscribeServer (Env : Type) :=
  { stream_Send : StreamId -> ModelOperationMessage -> Env -> Env * option error }.

(** ** Calls and log lines *)

Inductive Call :=
| CGetModel (modelName : string) (res : option Model * option error)
| CSend (key : ServerKey) (to : StreamId) (msg : ModelOperationMessage) (res : option error)
| CUpdateModelState (modelKey : string) (ver : Z) (srv : string) (idx : Z)
                    (mem : option Z) (st : ModelReplicaState) (msg : string)
                    (res : option error)
| CAddServerReplica (req : AgentSubscribeRequest) (res : option error)
| CRemoveServerReplica (srv : string) (idx : Z) (res : list string * option error)
| CSchedule (modelName : string) (res : option error)
| CScheduleFailedModels (res : Z * option error).

Inductive Level := Debug | Info | Error.

Inductive LogMsg :=
| SyncFailed (e : error)
| ModelNotFound (modelName : string)
| SendingLoad (modelName : string)
| SendingUnload (modelName : string)
| NoServerReplica (srv : string) (idx : Z)
| SendFailed (modelName : string) (idx : Z) (e : error)
| SetStateFailed (modelName : string) (idx : Z) (e : error)
| UpdatingState (modelName : string) (st : ModelReplicaState)
| FailedUpdating (modelName : string) (e : error)
| ReceivedSubscribe (srv : string) (idx : Z)
| ClosingStream (srv : string) (idx : Z)
| ClientDisconnected (srv : string) (idx : Z)
| FailedRemoveReplica (srv : string) (idx : Z) (e : error)
| ModelsChanged (names : list string)
| FailedReschedule (modelName : string) (srv : string) (idx : Z)
| AddingServerReplica (req : AgentSubscribeRequest).

Record LogEntry := { level : Level; text : LogMsg }.

(** ** The server and its monad

    [Server] holds the registry; the store, the scheduler and the streams are
    reached through the environment.  [chans] counts the channels made so
    far, so that [make(chan bool)] returns a fresh one. *)

Section AgentServer.

Context {Env : Type}.
Context `{!SchedulerStore Env, !Scheduler Env, !SubscribeServer Env}.

Record Server :=
  { agents : gmap ServerKey AgentSubscriber;
    env : Env;
    chans : nat }.

Record Res (A : Type) :=
  mkRes { val : A; final : Server; calls : list Call; logs : list LogEntry }.

Arguments mkRes {A} _ _ _ _.
Arguments val {A} _.
Arguments final {A} _.
Arguments calls {A} _.
Arguments logs {A} _.

Definition M (A : Type) : Type := Server -> Res A.

Definition ret {A} (a : A) : M A := fun s => mkRes a s [] [].

Definition bind {A B} (m : M A) (k : A -> M B) : M B :=
  fun s =>
    let r1 := m s in
    let r2 := k (val r1) (final r1) in
    mkRes (val r2) (final r2) (calls r1 ++ calls r2) (logs r1 ++ logs r2).

Notation "x <- m ;; k" := (bind m (fun x => k))
  (at level 20, m at level 99, k at level 200, only parsing).
Notation "m ;;; k" := (bind m (fun _ => k))
  (at level 100, k at level 200, right associativity, only parsing).

Definition logf (l : Level) (t : LogMsg) : M unit :=
  fun s => mkRes tt s [] [{| level := l; text := t |}].

Definition getAgents : M (gmap ServerKey AgentSubscriber) :=
  fun s => mkRes (agents s) s [] [].

Definition setAgents (a : gmap ServerKey AgentSubscriber) : M unit :=
  fun s => mkRes tt {| agents := a; env := env s; chans := chans s |} [] [].

Definition makeChan : M ChanId :=
  fun s => mkRes (chans s) {| agents := agents s; env := env s; chans := S (chans s) |} [] [].

(** A call on a collaborator: run it on the environment, record it. *)
Definition extern {A} (f : Env -> Env * A) (c : A -> Call) : M A :=
  fun s =>
    let '(e, a) := f (env s) in
    mkRes a {| agents := agents s; env := e; chans := chans s |} [c a] [].

Definition GetModel (modelName : string) : M (option Model * option error) :=
  extern (store_GetModel modelName) (CGetModel modelName).

Definition UpdateModelState (modelKey : string) (ver : Z) (srv : string) (idx : Z)
    (mem : option Z) (st : ModelReplicaState) (msg : string) : M (option error) :=
  extern (store_UpdateModelState modelKey ver srv idx mem st msg)
         (CUpdateModelState modelKey ver srv idx mem st msg).

Definition AddServerReplica (req : AgentSubscribeRequest) : M (option error) :=
  extern (store_AddServerReplica req) (CAddServerReplica req).

Definition RemoveServerReplica (srv : string) (idx : Z) : M (list string * option error) :=
  extern (store_RemoveServerReplica srv idx) (CRemoveServerReplica srv idx).

Definition Schedule (modelName : string) : M (option error) :=
  extern (scheduler_Schedule modelName) (CSchedule modelName).

Definition ScheduleFailedModels : M (Z * option error) :=
  extern scheduler_ScheduleFailedModels CScheduleFailedModels.

(** [as.stream.Send(msg)], for the subscriber found under [key]. *)
Definition Send (key : ServerKey) (a : AgentSubscriber) (msg : ModelOperationMessage)
    : M (option error) :=
  extern (stream_Send (stream a) msg) (CSend key (stream a) msg).

(** [for _, x := range l { body x }] *)
Fixpoint forRange {A} (l : list A) (body : A -> M unit) : M unit :=
  match l with
  | [] => ret tt
  | x :: l' => body x ;;; forRange l' body
  end.

(** ** Server.Sync *)

Definition operationMessage (op : Operation) (mv : ModelVersion) : ModelOperationMessage :=
  {| Operation_ := op;
     ModelVersion_ := {| pbModel := GetModel_ mv; pbVersion := GetVersion mv |} |}.

(** The body of the load loop, for one replica of the latest version. *)
Definition syncLoad (modelName : string) (latestModel : ModelVersion) (replicaIdx : Z)
    : M unit :=
  logf Info (SendingLoad modelName) ;;;
  ags <- getAgents ;;
  match ags !! {| serverName := Server_ latestModel; replicaIdx := uint32 replicaIdx |} with
  | None => logf Error (NoServerReplica (Server_ latestModel) replicaIdx)
  | Some a =>
      err <- Send {| serverName := Server_ latestModel; replicaIdx := uint32 replicaIdx |} a
                  (operationMessage LOAD_MODEL latestModel) ;;
      match err with
      | Some e => logf Error (SendFailed modelName replicaIdx e)
      | None =>
          err <- UpdateModelState (Key latestModel) (GetVersion latestModel)
                   (Server_ latestModel) replicaIdx None Loading "" ;;
          match err with
          | Some e => logf Error (SetStateFailed modelName replicaIdx e)
          | None => ret tt
          end
      end
  end.

(** The body of the unload loop, for one replica of one version. *)
Definition syncUnload (modelName : string) (modelVersion : ModelVersion) (replicaIdx : Z)
    : M unit :=
  logf Info (SendingUnload modelName) ;;;
  ags <- getAgents ;;
  match ags !! {| serverName := Server_ modelVersion; replicaIdx := uint32 replicaIdx |} with
  | None => logf Error (NoServerReplica (Server_ modelVersion) replicaIdx)
  | Some a =>
      err <- Send {| serverName := Server_ modelVersion; replicaIdx := uint32 replicaIdx |} a
                  (operationMessage UNLOAD_MODEL modelVersion) ;;
      match err with
      | Some e => logf Error (SendFailed modelName replicaIdx e)
      | None =>
          err <- UpdateModelState (Key modelVersion) (GetVersion modelVersion)
                   (Server_ modelVersion) replicaIdx None Unloading "" ;;
          match err with
          | Some e => logf Error (SetStateFailed modelName replicaIdx e)
          | None => ret tt
          end
      end
  end.

Definition syncLoads (modelName : string) (model : Model) : M unit :=
  match GetLatest model with
  | Some latestModel =>
      forRange (GetReplicaForState latestModel LoadRequested) (syncLoad modelName latestModel)
  | None => ret tt
  end.

Definition syncUnloads (modelName : string) (model : Model) : M unit :=
  forRange (Versions model)
    (fun modelVersion =>
       forRange (GetReplicaForState modelVersion UnloadRequested)
                (syncUnload modelName modelVersion)).

Definition Sync (modelName : string) : M unit :=
  r <- GetModel modelName ;;
  match r with
  | (_, Some e) => logf Error (SyncFailed e)
  | (None, None) => logf Error (ModelNotFound modelName)
  | (Some model, None) =>
      syncLoads modelName model ;;; syncUnloads modelName model
  end.

(** ** Server.AgentEvent *)

Definition eventState (e : EventType) : ModelReplicaState :=
  match e with
  | LOADED => Loaded
  | UNLOADED => Unloaded
  | LOAD_FAILED | LOAD_FAIL_MEMORY => LoadFailed
  | EVENT_OTHER _ => ModelReplicaStateUnknown
  end.

Definition AgentEvent (message : ModelEventMessage)
    : M (option ModelEventResponse * option Status) :=
  let state := eventState (ev_Event message) in
  logf Info (UpdatingState (ev_ModelName message) state) ;;;
  err <- UpdateModelState (ev_ModelName message) (ev_ModelVersion message)
           (ev_ServerName message) (ev_ReplicaIdx message)
           (Some (ev_AvailableMemoryBytes message)) state (ev_Message message) ;;
  match err with
  | Some e =>
      logf Info (FailedUpdating (ev_ModelName message) e) ;;;
      ret (None, Some {| st_code := Internal; st_msg := e |})
  | None => ret (Some Build_ModelEventResponse, None)
  end.

(** ** Server.Subscribe and Server.syncMessage *)

Definition syncMessage (request : AgentSubscribeRequest) (stream : StreamId)
    : M (option error) :=
  logf Debug (AddingServerReplica request) ;;;
  err <- AddServerReplica request ;;
  match err with
  | Some e => ret (Some e)
  | None =>
      r <- ScheduleFailedModels ;;
      match r.2 with
      | Some e => ret (Some e)
      | None => ret None
      end
  end.

(** The handler blocks in a [select] on two channels; which of them fires is
    decided outside the server and is an argument here.  The handler is run
    to its end in one go: what other goroutines do to the registry while it
    is blocked is not part of its run. *)
Inductive Signal := FinSignal | CtxDone.

Definition requestKey (request : AgentSubscribeRequest) : ServerKey :=
  {| serverName := req_ServerName request; replicaIdx := req_ReplicaIdx request |}.

(** The body of the rescheduling loop of the disconnect. *)
Definition reschedule (request : AgentSubscribeRequest) (modelName : string) : M unit :=
  err <- Schedule modelName ;;
  match err with
  | Some _ => logf Debug (FailedReschedule modelName (req_ServerName request)
                                           (req_ReplicaIdx request))
  | None => ret tt
  end.

(** The [ctx.Done()] case of the [select]. *)
Definition disconnect (request : AgentSubscribeRequest) : M (option error) :=
  logf Info (ClientDisconnected (req_ServerName request) (req_ReplicaIdx request)) ;;;
  ags <- getAgents ;;
  setAgents (delete (requestKey request) ags) ;;;
  r <- RemoveServerReplica (req_ServerName request) (req_ReplicaIdx request) ;;
  match r.2 with
  | Some e => logf Error (FailedRemoveReplica (req_ServerName request) (req_ReplicaIdx request) e)
  | None => ret tt
  end ;;;
  logf Debug (ModelsChanged r.1) ;;;
  forRange r.1 (reschedule request) ;;;
  ret None.

Definition Subscribe (request : AgentSubscribeRequest) (stream : StreamId) (sig : Signal)
    : M (option error) :=
  logf Info (ReceivedSubscribe (req_ServerName request) (req_ReplicaIdx request)) ;;;
  fin <- makeChan ;;
  ags <- getAgents ;;
  setAgents (<[requestKey request := {| finished := fin; stream := stream |}]> ags) ;;;
  err <- syncMessage request stream ;;
  match err with
  | Some e => ret (Some e)
  | None =>
      match sig with
      | FinSignal =>
          logf Info (ClosingStream (req_ServerName request) (req_ReplicaIdx request)) ;;;
          ret None
      | CtxDone => disconnect request
      end
  end.

End AgentServer.

Notation "x <- m ;; k" := (bind m (fun x => k))
  (at level 20, m at level 99, k at level 200, only parsing).
Notation "m ;;; k" := (bind m (fun _ => k))
  (at level 100, k at level 200, right associativity, only parsing).

Arguments mkRes {Env A} _ _ _ _.
Arguments val {Env A} _.
Arguments final {Env A} _.
Arguments calls {Env A} _.
Arguments logs {Env A} _.

(** ** An in-memory environment

    Modelled from the spec: the store, the scheduler and the streams behind
    the three interfaces are not part of the agent package.  This environment
    implements them the way the spec describes the collaborators, with
    switches that make single operations fail; it is the environment of the
    examples below. *)

Module MemoryEnv.

Record t :=
  { models : gmap string Model;
    outbox : list (StreamId * ModelOperationMessage);
    broken : list StreamId;
    readOnly : bool;
    refuseReplicas : bool;
    refuseRetry : bool;
    unplaceable : list string }.

Definition withModels (e : t) (ms : gmap string Model) : t :=
  {| models := ms; outbox := outbox e; broken := broken e; readOnly := readOnly e;
     refuseReplicas := refuseReplicas e; refuseRetry := refuseRetry e;
     unplaceable := unplaceable e |}.

Definition setReplica (ver : Z) (srv : string) (idx : Z) (st : ModelReplicaState)
    (mv : ModelVersion) : ModelVersion :=
  if decide (version mv = ver /\ server mv = srv)
  then {| modelDefn := modelDefn mv; version := version mv; server := server mv;
          replicas := <[idx := st]> (replicas mv) |}
  else mv.

Definition dropReplica (srv : string) (idx : Z) (mv : ModelVersion) : ModelVersion :=
  if decide (server mv = srv)
  then {| modelDefn := modelDefn mv; version := version mv; server := server mv;
          replicas := delete idx (replicas mv) |}
  else mv.

Definition hosts (srv : string) (idx : Z) (m : Model) : bool :=
  existsb (fun mv => bool_decide (server mv = srv /\ is_Some (replicas mv !! idx)))
          (Versions m).

Definition getModel (name : string) (e : t) : t * (option Model * option error) :=
  (e, (models e !! name, None)).

Definition updateModelState (key : string) (ver : Z) (srv : string) (idx : Z)
    (mem : option Z) (st : ModelReplicaState) (msg : string) (e : t) : t * option error :=
  if readOnly e then (e, Some "store is read-only")
  else match models e !! key with
       | None => (e, Some "model not found")
       | Some m =>
           (withModels e
              (<[key := {| Versions := setReplica ver srv idx st <$> Versions m |}]> (models e)),
            None)
       end.

Definition addServerReplica (req : AgentSubscribeRequest) (e : t) : t * option error :=
  if refuseReplicas e then (e, Some "replica refused") else (e, None).

Definition removeServerReplica (srv : string) (idx : Z) (e : t)
    : t * (list string * option error) :=
  (withModels e ((fun m => {| Versions := dropReplica srv idx <$> Versions m |}) <$> models e),
   ((map_to_list (filter (fun kv => hosts srv idx kv.2 = true) (models e))).*1, None)).

Definition schedule (name : string) (e : t) : t * option error :=
  if bool_decide (name ∈ unplaceable e) then (e, Some "no placement") else (e, None).

Definition scheduleFailedModels (e : t) : t * (Z * option error) :=
  if refuseRetry e then (e, (0, Some "retry failed")) else (e, (0, None)).

Definition send (to : StreamId) (msg : ModelOperationMessage) (e : t) : t * option error :=
  if bool_decide (to ∈ broken e) then (e, Some "stream closed")
  else ({| models := models e; outbox := outbox e ++ [(to, msg)]; broken := broken e;
           readOnly := readOnly e; refuseReplicas := refuseReplicas e;
           refuseRetry := refuseRetry e; unplaceable := unplaceable e |}, None).

#[global] Instance store : SchedulerStore t :=
  {| store_GetModel := getModel;
     store_UpdateModelState := updateModelState;
     store_AddServerReplica := addServerReplica;
     store_RemoveServerReplica := removeServerReplica |}.

#[global] Instance scheduler : Scheduler t :=
  {| scheduler_Schedule := schedule;
     scheduler_ScheduleFailedModels := scheduleFailedModels |}.

#[global] Instance streams : SubscribeServer t :=
  {| stream_Send := send |}.

(** The model "iris": version 1 on serverA is being drained from replica 0,
    version 2 on serverA is to be loaded on replicas 0, 1 and 2. *)
Definition irisDefn : pb_Model := {| pb_Name := "iris" |}.

Definition iris1 : ModelVersion :=
  {| modelDefn := irisDefn; version := 1; server := "serverA";
     replicas := {[ 0 := UnloadRequested ]} |}.

Definition iris2 : ModelVersion :=
  {| modelDefn := irisDefn; version := 2; server := "serverA";
     replicas := {[ 0 := LoadRequested; 1 := LoadRequested; 2 := LoadRequested ]} |}.

Definition iris : Model := {| Versions := [iris1; iris2] |}.

Definition env0 : t :=
  {| models := {[ "iris" := iris ]}; outbox := []; broken := [8%nat]; readOnly := false;
     refuseReplicas := false; refuseRetry := false; unplaceable := [] |}.

(** Replica 0 of serverA is connected on stream 7, replica 1 on the broken
    stream 8, replica 2 is not connected. *)
Definition server0 : Server :=
  {| agents := {[ {| serverName := "serverA"; replicaIdx := 0 |} := {| finished := 0%nat; stream := 7%nat |};
                  {| serverName := "serverA"; replicaIdx := 1 |} := {| finished := 1%nat; stream := 8%nat |} ]};
     env := env0;
     chans := 2%nat |}.

(** An empty registry over the same store. *)
Definition server1 : Server := {| agents := ∅; env := env0; chans := 0%nat |}.

Definition requestA0 : AgentSubscribeRequest :=
  {| req_ServerName := "serverA"; req_ReplicaIdx := 0 |}.

(** A second model, "wine", loaded on replica 0 of serverA; the scheduler
    finds no placement for "wine". *)
Definition wine : Model :=
  {| Versions := [ {| modelDefn := {| pb_Name := "wine" |}; version := 1; server := "serverA";
                      replicas := {[ 0 := Loaded ]} |} ] |}.

Definition server2 : Server :=
  {| agents := ∅;
     env := {| models := {[ "iris" := iris; "wine" := wine ]}; outbox := []; broken := [];
               readOnly := false; refuseReplicas := false; refuseRetry := false;
               unplaceable := ["wine"] |};
     chans := 0%nat |}.

(** The retry of the unplaceable models fails. *)
Definition server3 : Server :=
  {| agents := ∅;
     env := {| models := {[ "iris" := iris ]}; outbox := []; broken := [];
               readOnly := false; refuseReplicas := false; refuseRetry := true;
               unplaceable := [] |};
     chans := 0%nat |}.

End MemoryEnv.

(** ** The subscribe handler, step by step *)

Section Handler.

Context {Env : Type}.
Context `{!SchedulerStore Env, !Scheduler Env, !SubscribeServer Env}.

(** The server once [Subscribe] has installed the connection record: a fresh
    channel was made and the record stored under the identity of the
    request, replacing any record found there. *)
Definition registered (request : AgentSubscribeRequest) (stream : StreamId)
    (s : Server (Env:=Env)) : Server :=
  {| agents := <[requestKey request := {| finished := chans s; stream := stream |}]> (agents s);
     env := env s;
     chans := S (chans s) |}.

(** The run of [syncMessage] inside [Subscribe], on the server with the
    record installed. *)
Definition afterSync (request : AgentSubscribeRequest) (stream : StreamId)
    (s : Server (Env:=Env)) : Res (option error) :=
  syncMessage request stream (registered request stream s).

(** The spec's reading of the initial synchronization: replay the
    reconciliation pass for every model assigned to the replica, then retry
    the scheduling of the unplaceable models. *)
Definition initialSync_spec (assigned : list string) : M (option error) :=
  forRange assigned Sync ;;;
  r <- ScheduleFailedModels ;;
  ret r.2.

End Handler.

(** ** What a pass does, replica by replica

    The identity under which the registry is asked for replica [r] of a model
    version, the state a command advances to, and the work list of a pass:
    the load-requested replicas of the latest version, then the
    unload-requested replicas of every version. *)

Definition replicaKey (mv : ModelVersion) (r : Z) : ServerKey :=
  {| serverName := Server_ mv; replicaIdx := uint32 r |}.

Definition commandState (op : Operation) : ModelReplicaState :=
  match op with LOAD_MODEL => Loading | UNLOAD_MODEL => Unloading end.

Definition requestedState (op : Operation) : ModelReplicaState :=
  match op with LOAD_MODEL => LoadRequested | UNLOAD_MODEL => UnloadRequested end.

Definition Item : Type := Operation * ModelVersion * Z.

Definition loadItems (model : Model) : list Item :=
  match GetLatest model with
  | Some latestModel =>
      (fun r => (LOAD_MODEL, latestModel, r)) <$> GetReplicaForState latestModel LoadRequested
  | None => []
  end.

Definition unloadItems (model : Model) : list Item :=
  mjoin ((fun mv => (fun r => (UNLOAD_MODEL, mv, r)) <$> GetReplicaForState mv UnloadRequested)
           <$> Versions model).

Definition workItems (model : Model) : list Item := loadItems model ++ unloadItems model.

(** The calls one work item may give rise to: none when the replica is not
    connected, a failed send, or a successful send followed by the update. *)
Inductive item_calls (ags : gmap ServerKey AgentSubscriber) : Item -> list Call -> Prop :=
| item_absent op mv r :
    ags !! replicaKey mv r = None ->
    item_calls ags (op, mv, r) []
| item_send_failed op mv r a e :
    ags !! replicaKey mv r = Some a ->
    item_calls ags (op, mv, r)
      [CSend (replicaKey mv r) (stream a) (operationMessage op mv) (Some e)]
| item_sent op mv r a res :
    ags !! replicaKey mv r = Some a ->
    item_calls ags (op, mv, r)
      [CSend (replicaKey mv r) (stream a) (operationMessage op mv) None;
       CUpdateModelState (Key mv) (GetVersion mv) (Server_ mv) r None (commandState op) "" res].

(** The states written, the commands sent and the models rescheduled by a
    list of calls. *)
Definition writtenState (c : Call) : option ModelReplicaState :=
  match c with CUpdateModelState _ _ _ _ _ st _ _ => Some st | _ => None end.

Definition sentCommand (c : Call) : option (ServerKey * ModelOperationMessage) :=
  match c with CSend key _ msg _ => Some (key, msg) | _ => None end.

Definition scheduledModel (c : Call) : option string :=
  match c with CSchedule n _ => Some n | _ => None end.

Definition failedSchedule (c : Call) : option string :=
  match c with CSchedule n (Some _) => Some n | _ => None end.

Definition rescheduleFailure (l : LogEntry) : option string :=
  match text l with FailedReschedule n _ _ => Some n | _ => None end.

Definition isSchedule (n : string) (c : Call) : Prop :=
  match c with CSchedule n' _ => n' = n | _ => False end.

Definition isSend (c : Call) : Prop :=
  match c with CSend _ _ _ _ => True | _ => False end.

Section AgentServerFacts.

Context {Env : Type}.
Context `{!SchedulerStore Env, !Scheduler Env, !SubscribeServer Env}.

Implicit Types (s : Server (Env:=Env)) (n : string) (mv : ModelVersion) (r : Z).

(** *** The registry is only written by [Subscribe] *)

Definition keeps_agents {A} (m : M A) : Prop :=
  forall s, agents (final (m s)) = agents s.

Lemma keeps_ret {A} (a : A) : keeps_agents (ret a).
Proof. done. Qed.

Lemma keeps_logf l t : keeps_agents (logf l t).
Proof. done. Qed.

Lemma keeps_getAgents : keeps_agents getAgents.
Proof. done. Qed.

Lemma keeps_extern {A} (f : Env -> Env * A) c : keeps_agents (extern f c).
Proof. intros s. unfold extern. by destruct (f (env s)). Qed.

Lemma keeps_bind {A B} (m : M A) (k : A -> M B) :
  keeps_agents m -> (forall a, keeps_agents (k a)) -> keeps_agents (bind m k).
Proof. intros Hm Hk s. unfold bind; simpl. by rewrite Hk, Hm. Qed.

Lemma keeps_forRange {A} (l : list A) (body : A -> M unit) :
  (forall x, keeps_agents (body x)) -> keeps_agents (forRange l body).
Proof.
  intros Hb. induction l as [|x l IH]; [apply keeps_ret|].
  apply keeps_bind; [apply Hb | intros _; apply IH].
Qed.

Ltac keeps :=
  repeat first
    [ apply keeps_ret | apply keeps_logf | apply keeps_getAgents | apply keeps_extern
    | apply keeps_forRange; intros ?
    | apply keeps_bind; [|intros ?]
    | match goal with |- keeps_agents (match ?x with _ => _ end) => destruct x end ].

Lemma keeps_syncLoad n mv r : keeps_agents (syncLoad n mv r).
Proof. unfold syncLoad, Send, UpdateModelState. keeps. Qed.

Lemma keeps_syncUnload n mv r : keeps_agents (syncUnload n mv r).
Proof. unfold syncUnload, Send, UpdateModelState. keeps. Qed.

Lemma keeps_Sync n : keeps_agents (Sync n).
Proof.
  unfold Sync, GetModel, syncLoads, syncUnloads. keeps;
    auto using keeps_syncLoad, keeps_syncUnload.
Qed.

Lemma keeps_syncMessage req st : keeps_agents (syncMessage req st).
Proof. unfold syncMessage, AddServerReplica, ScheduleFailedModels. keeps. Qed.

Lemma keeps_AgentEvent msg : keeps_agents (AgentEvent msg).
Proof. unfold AgentEvent, UpdateModelState. keeps. Qed.

(** *** The shape of a pass *)

Lemma calls_bind {A B} (m : M A) (k : A -> M B) s :
  calls (bind m k s) = calls (m s) ++ calls (k (val (m s)) (final (m s))).
Proof. done. Qed.

Lemma logs_bind {A B} (m : M A) (k : A -> M B) s :
  logs (bind m k s) = logs (m s) ++ logs (k (val (m s)) (final (m s))).
Proof. done. Qed.

Lemma final_bind {A B} (m : M A) (k : A -> M B) s :
  final (bind m k s) = final (k (val (m s)) (final (m s))).
Proof. done. Qed.

Lemma val_bind {A B} (m : M A) (k : A -> M B) s :
  val (bind m k s) = val (k (val (m s)) (final (m s))).
Proof. done. Qed.

Lemma extern_run {A} (f : Env -> Env * A) (c : A -> Call) s :
  extern f c s =
  mkRes (f (env s)).2 {| agents := agents s; env := (f (env s)).1; chans := chans s |}
        [c (f (env s)).2] [].
Proof. unfold extern. by destruct (f (env s)). Qed.

Lemma syncLoad_calls n mv r s :
  item_calls (agents s) (LOAD_MODEL, mv, r) (calls (syncLoad n mv r s)).
Proof.
  unfold syncLoad, Send, UpdateModelState.
  rewrite !calls_bind; simpl.
  fold (replicaKey mv r).
  destruct (agents s !! replicaKey mv r) as [a|] eqn:Hk; simpl.
  - rewrite ?calls_bind, !extern_run; simpl.
    destruct (stream_Send (stream a) (operationMessage LOAD_MODEL mv) (env s)) as [e1 [e|]];
      simpl.
    + by apply item_send_failed.
    + rewrite ?calls_bind, !extern_run; simpl.
      match goal with |- context [CUpdateModelState _ _ _ _ _ _ _ ?x] =>
        destruct x; simpl; by apply (item_sent _ LOAD_MODEL) end.
  - by apply item_absent.
Qed.

Lemma syncUnload_calls n mv r s :
  item_calls (agents s) (UNLOAD_MODEL, mv, r) (calls (syncUnload n mv r s)).
Proof.
  unfold syncUnload, Send, UpdateModelState.
  rewrite !calls_bind; simpl.
  fold (replicaKey mv r).
  destruct (agents s !! replicaKey mv r) as [a|] eqn:Hk; simpl.
  - rewrite ?calls_bind, !extern_run; simpl.
    destruct (stream_Send (stream a) (operationMessage UNLOAD_MODEL mv) (env s)) as [e1 [e|]];
      simpl.
    + by apply item_send_failed.
    + rewrite ?calls_bind, !extern_run; simpl.
      match goal with |- context [CUpdateModelState _ _ _ _ _ _ _ ?x] =>
        destruct x; simpl; by apply (item_sent _ UNLOAD_MODEL) end.
  - by apply item_absent.
Qed.

(** A loop whose body makes the calls of one item, and leaves the registry
    alone, makes the calls of its items in order. *)
Lemma forRange_calls {A} (ags : gmap ServerKey AgentSubscriber)
    (item : A -> Item) (l : list A) (body : A -> M unit) s :
  (forall x, keeps_agents (body x)) ->
  (forall x s', item_calls (agents s') (item x) (calls (body x s'))) ->
  agents s = ags ->
  exists bs, Forall2 (item_calls ags) (item <$> l) bs /\ calls (forRange l body s) = mjoin bs.
Proof.
  intros Hk Hb. revert s. induction l as [|x l IH]; intros s Hs.
  - exists []. split; [constructor | done].
  - simpl.
    destruct (IH (final (body x s))) as (bs & Hbs & Heq).
    { by rewrite Hk. }
    exists (calls (body x s) :: bs). split.
    + constructor; [|done]. rewrite <- Hs. apply Hb.
    + simpl. by rewrite Heq.
Qed.

Lemma syncLoads_calls n model s :
  exists bs, Forall2 (item_calls (agents s)) (loadItems model) bs
             /\ calls (syncLoads n model s) = mjoin bs.
Proof.
  unfold syncLoads, loadItems. destruct (GetLatest model) as [latest|].
  - apply forRange_calls; auto using keeps_syncLoad, syncLoad_calls.
  - exists []. split; [constructor | done].
Qed.

Lemma syncUnloads_calls n model s :
  exists bs, Forall2 (item_calls (agents s)) (unloadItems model) bs
             /\ calls (syncUnloads n model s) = mjoin bs.
Proof.
  unfold syncUnloads, unloadItems. generalize (eq_refl (agents s)).
  generalize (agents s) at 1 3 as ags. intros ags. revert s.
  induction (Versions model) as [|mv l IH]; intros s Hs.
  - exists []. split; [constructor | done].
  - simpl.
    destruct (forRange_calls ags (fun r => (UNLOAD_MODEL, mv, r))
                (GetReplicaForState mv UnloadRequested) (syncUnload n mv) s)
      as (b1 & Hb1 & He1); auto using keeps_syncUnload, syncUnload_calls.
    destruct (IH (final (forRange (GetReplicaForState mv UnloadRequested)
                                  (syncUnload n mv) s))) as (b2 & Hb2 & He2).
    { rewrite keeps_forRange; auto using keeps_syncUnload. }
    exists (b1 ++ b2). split.
    + by apply Forall2_app.
    + rewrite He1, He2. by rewrite join_app.
Qed.

(** The calls of a pass: the lookup of the model, then the calls of the work
    items, in order. *)
Lemma Sync_calls n s :
  calls (Sync n s) =
    [CGetModel n (store_GetModel n (env s)).2] /\
    (forall model, (store_GetModel n (env s)).2 <> (Some model, None))
  \/ exists model bs,
      (store_GetModel n (env s)).2 = (Some model, None) /\
      Forall2 (item_calls (agents s)) (workItems model) bs /\
      calls (Sync n s) = CGetModel n (Some model, None) :: mjoin bs.
Proof.
  unfold Sync, GetModel. rewrite calls_bind, extern_run; simpl.
  destruct (store_GetModel n (env s)) as [e1 [[model|] [e|]]]; simpl;
    try (left; split; [done | congruence]).
  right. exists model.
  destruct (syncLoads_calls n model {| agents := agents s; env := e1; chans := chans s |})
    as (b1 & Hb1 & He1).
  destruct (syncUnloads_calls n model
              (final (syncLoads n model {| agents := agents s; env := e1; chans := chans s |})))
    as (b2 & Hb2 & He2).
  assert (Hk : keeps_agents (syncLoads n model)).
  { unfold syncLoads. destruct (GetLatest model); [|apply keeps_ret].
    apply keeps_forRange; auto using keeps_syncLoad. }
  rewrite Hk in Hb2. simpl in Hb1, Hb2.
  exists (b1 ++ b2). split; [done|]. split.
  - by apply Forall2_app.
  - rewrite He1, He2. by rewrite join_app.
Qed.

(** *** Reading the calls of the work items *)

Lemma elem_of_GetReplicaForState mv r st :
  r ∈ GetReplicaForState mv st <-> replicas mv !! r = Some st.
Proof.
  unfold GetReplicaForState. rewrite list_elem_of_fmap. split.
  - intros ([r' st'] & -> & Hin). apply elem_of_map_to_list in Hin.
    apply map_lookup_filter_Some in Hin as [Hl Hst]. simpl in *. by subst.
  - intros Hl. exists (r, st). split; [done|].
    apply elem_of_map_to_list, map_lookup_filter_Some. by split.
Qed.

Lemma elem_of_loadItems model op mv r :
  (op, mv, r) ∈ loadItems model <->
  op = LOAD_MODEL /\ GetLatest model = Some mv /\ replicas mv !! r = Some LoadRequested.
Proof.
  unfold loadItems. destruct (GetLatest model) as [latest|].
  - rewrite list_elem_of_fmap. setoid_rewrite elem_of_GetReplicaForState. split.
    + intros (r' & [= -> -> ->] & Hr). done.
    + intros (-> & [= ->] & Hr). by exists r.
  - rewrite elem_of_nil. split; [done | by intros (_ & ? & _)].
Qed.

Lemma elem_of_unloadItems model op mv r :
  (op, mv, r) ∈ unloadItems model <->
  op = UNLOAD_MODEL /\ mv ∈ Versions model /\ replicas mv !! r = Some UnloadRequested.
Proof.
  unfold unloadItems. rewrite list_elem_of_join. split.
  - intros (l & Hin & Hl). apply list_elem_of_fmap in Hl as (mv' & -> & Hmv).
    apply list_elem_of_fmap in Hin as (r' & [= -> -> ->] & Hr).
    by apply elem_of_GetReplicaForState in Hr.
  - intros (-> & Hmv & Hr).
    exists ((fun r => (UNLOAD_MODEL, mv, r)) <$> GetReplicaForState mv UnloadRequested).
    split.
    + apply list_elem_of_fmap. exists r. by rewrite elem_of_GetReplicaForState.
    + apply list_elem_of_fmap. by exists mv.
Qed.

Lemma elem_of_workItems model (op : Operation) mv r :
  (op, mv, r) ∈ workItems model <->
  match op with
  | LOAD_MODEL => GetLatest model = Some mv
  | UNLOAD_MODEL => mv ∈ Versions model
  end /\ replicas mv !! r = Some (requestedState op).
Proof.
  unfold workItems. rewrite elem_of_app, elem_of_loadItems, elem_of_unloadItems.
  destruct op; simpl; split; intros; destruct_and?; destruct_or?; destruct_and?;
    simplify_eq; auto.
Qed.

(** Every call of the work items belongs to the calls of one of them. *)
Lemma item_calls_elem ags items bs c :
  Forall2 (item_calls ags) items bs -> c ∈ mjoin bs ->
  exists it b, it ∈ items /\ item_calls ags it b /\ c ∈ b.
Proof.
  intros HF Hc. apply list_elem_of_join in Hc as (b & Hcb & Hb).
  apply list_elem_of_lookup in Hb as [i Hi].
  destruct (Forall2_lookup_r _ _ _ _ _ HF Hi) as (it & Hit & Hcalls).
  exists it, b. split; [|done]. by eapply list_elem_of_lookup_2.
Qed.

(** Every work item has its calls among the calls of the pass. *)
Lemma item_calls_covered ags items bs it :
  Forall2 (item_calls ags) items bs -> it ∈ items ->
  exists b, item_calls ags it b /\ forall c, c ∈ b -> c ∈ mjoin bs.
Proof.
  intros HF Hit. apply list_elem_of_lookup in Hit as [i Hi].
  destruct (Forall2_lookup_l _ _ _ _ _ HF Hi) as (b & Hb & Hcalls).
  exists b. split; [done|]. intros c Hc. apply list_elem_of_join.
  exists b. split; [done|]. by eapply list_elem_of_lookup_2.
Qed.

(** The calls of the work items start, if there are any, with a send. *)
Lemma item_calls_head ags items bs :
  Forall2 (item_calls ags) items bs ->
  match mjoin bs with c :: _ => isSend c | [] => True end.
Proof.
  induction 1 as [|it b items bs Hit _ IH]; [done|].
  simpl. by destruct Hit.
Qed.

(** Where an update stands in the calls of a pass, and what follows a failed
    send. *)
Definition in_order (ags : gmap ServerKey AgentSubscriber)
    (pre : list Call) (c : Call) (post : list Call) : Prop :=
  match c with
  | CUpdateModelState k v srv r mem st msg _ =>
      exists pre' sub op mv,
        pre = pre' ++ [CSend (replicaKey mv r) (stream sub) (operationMessage op mv) None]
        /\ ags !! replicaKey mv r = Some sub
        /\ k = Key mv /\ v = GetVersion mv /\ srv = Server_ mv /\ st = commandState op
  | CSend _ _ _ (Some _) => match post with c' :: _ => isSend c' | [] => True end
  | _ => True
  end.

Lemma in_order_cons ags x pre c post :
  in_order ags pre c post -> in_order ags (x :: pre) c post.
Proof.
  destruct c; simpl; try done.
  intros (pre' & sub & op & mv & -> & H). by exists (x :: pre'), sub, op, mv.
Qed.

Lemma item_calls_in_order ags items bs :
  Forall2 (item_calls ags) items bs ->
  forall pre c post, mjoin bs = pre ++ c :: post -> in_order ags pre c post.
Proof.
  induction 1 as [|it b items bs Hit HF IH]; intros pre c post Heq.
  { by destruct pre. }
  pose proof (item_calls_head _ _ _ HF) as Hhead.
  simpl in Heq. destruct Hit as [op mv r Hk | op mv r a e Hk | op mv r a res Hk]; simpl in Heq.
  - by apply IH.
  - destruct pre as [|x pre]; simplify_eq/=; [done|].
    by apply in_order_cons, IH.
  - destruct pre as [|x [|y pre]]; simplify_eq/=; [done| |].
    + exists [], a, op, mv. done.
    + by apply in_order_cons, in_order_cons, IH.
Qed.

(** *** The handler *)

Lemma syncMessage_calls req st s :
  calls (syncMessage req st s) =
    CAddServerReplica req (store_AddServerReplica req (env s)).2 ::
    match (store_AddServerReplica req (env s)).2 with
    | Some _ => []
    | None =>
        [CScheduleFailedModels
           (scheduler_ScheduleFailedModels (store_AddServerReplica req (env s)).1).2]
    end.
Proof.
  unfold syncMessage, AddServerReplica, ScheduleFailedModels.
  rewrite !calls_bind, extern_run; simpl.
  destruct (store_AddServerReplica req (env s)) as [e1 [e|]]; simpl; [done|].
  rewrite extern_run; simpl.
  by destruct (scheduler_ScheduleFailedModels e1) as [e2 [k [e|]]].
Qed.

Lemma syncMessage_val req st s :
  val (syncMessage req st s) =
    match (store_AddServerReplica req (env s)).2 with
    | Some e => Some e
    | None => (scheduler_ScheduleFailedModels (store_AddServerReplica req (env s)).1).2.2
    end.
Proof.
  unfold syncMessage, AddServerReplica, ScheduleFailedModels.
  rewrite !val_bind, extern_run; simpl.
  destruct (store_AddServerReplica req (env s)) as [e1 [e|]]; simpl; [done|].
  rewrite extern_run; simpl.
  by destruct (scheduler_ScheduleFailedModels e1) as [e2 [k [e|]]].
Qed.

(** The rescheduling loop of the disconnect: one [Schedule] per name, in
    order, and one log line per failure. *)
Lemma Schedule_run n s :
  Schedule n s =
  mkRes (scheduler_Schedule n (env s)).2
        {| agents := agents s; env := (scheduler_Schedule n (env s)).1; chans := chans s |}
        [CSchedule n (scheduler_Schedule n (env s)).2] [].
Proof. apply extern_run. Qed.

Lemma reschedule_calls req names s :
  let loop := forRange names (reschedule req) s in
  Forall2 isSchedule names (calls loop)
  /\ omap rescheduleFailure (logs loop) = omap failedSchedule (calls loop)
  /\ agents (final loop) = agents s.
Proof.
  revert s. induction names as [|n names IH]; intros s; simpl.
  { split; [constructor | done]. }
  change (reschedule req n s) with
    ((err <- Schedule n ;;
      match err with
      | Some _ => logf Debug (FailedReschedule n (req_ServerName req) (req_ReplicaIdx req))
      | None => ret tt
      end) s).
  rewrite ?calls_bind, ?logs_bind, ?final_bind, ?val_bind, !Schedule_run; simpl.
  destruct (scheduler_Schedule n (env s)) as [e1 [e|]]; simpl.
  - destruct (IH {| agents := agents s; env := e1; chans := chans s |}) as (Hc & Hl & Ha).
    split; [by constructor|]. split; [|done].
    f_equal. exact Hl.
  - destruct (IH {| agents := agents s; env := e1; chans := chans s |}) as (Hc & Hl & Ha).
    split; [by constructor|]. done.
Qed.

Lemma disconnect_run req s :
  let rm := store_RemoveServerReplica (req_ServerName req) (req_ReplicaIdx req) (env s) in
  exists sched,
    calls (disconnect req s) =
      CRemoveServerReplica (req_ServerName req) (req_ReplicaIdx req) rm.2 :: sched
    /\ Forall2 isSchedule rm.2.1 sched
    /\ omap rescheduleFailure (logs (disconnect req s)) = omap failedSchedule sched
    /\ agents (final (disconnect req s)) = delete (requestKey req) (agents s)
    /\ val (disconnect req s) = None.
Proof.
  intros rm. unfold disconnect, RemoveServerReplica.
  rewrite ?calls_bind, ?logs_bind, ?final_bind, ?val_bind; simpl.
  rewrite !extern_run; simpl. fold rm.
  set (s1 := {| agents := delete (requestKey req) (agents s); env := rm.1; chans := chans s |}).
  assert (Hlog : exists l,
    (forall t, t ∈ l -> rescheduleFailure t = None) /\
    match rm.2.2 with
    | Some e => logf Error (FailedRemoveReplica (req_ServerName req) (req_ReplicaIdx req) e)
    | None => ret tt
    end s1 = mkRes tt s1 [] l).
  { destruct (rm.2.2) as [e|].
    - eexists. split; [|reflexivity]. by intros t ->%list_elem_of_singleton.
    - exists []. split; [|reflexivity]. by intros t ?%elem_of_nil. }
  destruct Hlog as (l & Hl & ->); cbn [calls logs final val app].
  destruct (reschedule_calls req rm.2.1 s1) as (Hc & Hlogs & Ha).
  exists (calls (forRange rm.2.1 (reschedule req) s1)).
  rewrite !app_nil_r. split; [done|]. split; [done|]. split; [|done].
  rewrite omap_app.
  change (omap rescheduleFailure ({| level := Debug; text := ModelsChanged rm.2.1 |} ::
            logs (forRange rm.2.1 (reschedule req) s1)))
    with (omap rescheduleFailure (logs (forRange rm.2.1 (reschedule req) s1))).
  rewrite Hlogs.
  assert (omap rescheduleFailure l = []) as ->; [|done].
  clear -Hl. induction l as [|t l IH]; [done|].
  change (omap rescheduleFailure (t :: l))
    with (match rescheduleFailure t with Some n => n :: omap rescheduleFailure l
                                    | None => omap rescheduleFailure l end).
  rewrite (Hl t) by apply list_elem_of_here.
  apply IH. intros t' Ht'. apply Hl. by apply list_elem_of_further.
Qed.

Lemma Subscribe_run req st sig s :
  let r1 := syncMessage req st (registered req st s) in
  let r2 :=
    match val r1 with
    | Some e => ret (Some e)
    | None =>
        match sig with
        | FinSignal =>
            logf Info (ClosingStream (req_ServerName req) (req_ReplicaIdx req)) ;;; ret None
        | CtxDone => disconnect req
        end
    end (final r1) in
  val (Subscribe req st sig s) = val r2
  /\ final (Subscribe req st sig s) = final r2
  /\ calls (Subscribe req st sig s) = calls r1 ++ calls r2
  /\ logs (Subscribe req st sig s) =
       {| level := Info; text := ReceivedSubscribe (req_ServerName req) (req_ReplicaIdx req) |}
       :: logs r1 ++ logs r2.
Proof. done. Qed.

Lemma Subscribe_calls req st sig s :
  let r1 := syncMessage req st (registered req st s) in
  calls (Subscribe req st sig s) =
    calls r1 ++
    match val r1, sig with
    | None, CtxDone => calls (disconnect req (final r1))
    | _, _ => []
    end.
Proof.
  intros r1. destruct (Subscribe_run req st sig s) as (_ & _ & -> & _).
  fold r1. by destruct (val r1), sig.
Qed.

Lemma omap_all_None {A B} (f : A -> option B) (l : list A) :
  Forall (fun x => f x = None) l -> omap f l = [].
Proof.
  induction 1 as [|x l Hx _ IH]; [done|].
  change (omap f (x :: l)) with (match f x with Some y => y :: omap f l | None => omap f l end).
  by rewrite Hx.
Qed.

(** The handler neither sends a command nor writes a replica state. *)
Lemma Subscribe_calls_quiet req st sig s :
  Forall (fun c => writtenState c = None /\ sentCommand c = None)
         (calls (Subscribe req st sig s)).
Proof.
  rewrite Subscribe_calls. apply Forall_app. split.
  - rewrite syncMessage_calls. constructor; [done|].
    destruct ((store_AddServerReplica req _).2); [constructor | by repeat constructor].
  - destruct (val _); [constructor|]. destruct sig; [constructor|].
    destruct (disconnect_run req (final (syncMessage req st (registered req st s))))
      as (sched & -> & Hs & _).
    constructor; [done|]. clear -Hs.
    induction Hs as [|x c names sched Hx _ IH]; constructor; [|done].
    by destruct c.
Qed.

(** *** Sends and updates of a pass, against the work list *)

Lemma Sync_calls_of_model n s model :
  (store_GetModel n (env s)).2 = (Some model, None) ->
  exists bs, Forall2 (item_calls (agents s)) (workItems model) bs
             /\ calls (Sync n s) = CGetModel n (Some model, None) :: mjoin bs.
Proof.
  intros Hget. destruct (Sync_calls n s) as [[_ Hno] | (model' & bs & Hget' & HF & Hc)].
  - by destruct (Hno model).
  - rewrite Hget in Hget'. simplify_eq. by exists bs.
Qed.

(** Every send of a pass is the command of a work item whose replica is
    connected, on the stream of its subscriber. *)
Lemma Sync_send_inv n s model key to msg res :
  (store_GetModel n (env s)).2 = (Some model, None) ->
  CSend key to msg res ∈ calls (Sync n s) ->
  exists op mv r sub,
    (op, mv, r) ∈ workItems model /\ key = replicaKey mv r
    /\ msg = operationMessage op mv /\ agents s !! key = Some sub /\ to = stream sub.
Proof.
  intros Hget Hin. destruct (Sync_calls_of_model n s model Hget) as (bs & HF & Hc).
  rewrite Hc in Hin. apply elem_of_cons in Hin as [? | Hin]; [done|].
  destruct (item_calls_elem _ _ _ _ HF Hin) as (it & b & Hit & Hb & Hcb).
  destruct Hb as [op mv r Hk | op mv r a e Hk | op mv r a e Hk].
  - by apply elem_of_nil in Hcb.
  - apply list_elem_of_singleton in Hcb. simplify_eq. by exists op, mv, r, a.
  - apply elem_of_cons in Hcb as [? | Hcb]; [|by apply list_elem_of_singleton in Hcb].
    simplify_eq. by exists op, mv, r, a.
Qed.

(** Every work item whose replica is connected has its command sent. *)
Lemma Sync_send_intro n s model op mv r sub :
  (store_GetModel n (env s)).2 = (Some model, None) ->
  (op, mv, r) ∈ workItems model ->
  agents s !! replicaKey mv r = Some sub ->
  exists res, CSend (replicaKey mv r) (stream sub) (operationMessage op mv) res
              ∈ calls (Sync n s).
Proof.
  intros Hget Hit Hk. destruct (Sync_calls_of_model n s model Hget) as (bs & HF & Hc).
  destruct (item_calls_covered _ _ _ _ HF Hit) as (b & Hb & Hsub).
  rewrite Hc. inversion Hb; simplify_eq.
  - eexists. apply list_elem_of_further, Hsub, list_elem_of_here.
  - eexists. apply list_elem_of_further, Hsub, list_elem_of_here.
Qed.

(** A pass touches connected replicas only: the identity it sends to, and
    the identity of the replica whose state it updates, are in the registry. *)
Lemma Sync_call_connected n s c :
  c ∈ calls (Sync n s) ->
  match c with
  | CSend key _ _ _ => is_Some (agents s !! key)
  | CUpdateModelState _ _ srv r _ _ _ _ =>
      is_Some (agents s !! {| serverName := srv; replicaIdx := uint32 r |})
  | _ => True
  end.
Proof.
  intros Hin.
  destruct (Sync_calls n s) as [[Hc _] | (model & bs & _ & HF & Hc)]; rewrite Hc in Hin.
  - by apply list_elem_of_singleton in Hin as ->.
  - apply elem_of_cons in Hin as [-> | Hin]; [done|].
    destruct (item_calls_elem _ _ _ _ HF Hin) as (it & b & Hit & Hb & Hcb).
    destruct Hb as [op mv r Hk | op mv r a e Hk | op mv r a e Hk].
    + by apply elem_of_nil in Hcb.
    + apply list_elem_of_singleton in Hcb as ->. by exists a.
    + apply elem_of_cons in Hcb as [-> | Hcb]; [by exists a|].
      apply list_elem_of_singleton in Hcb as ->. by exists a.
Qed.

Lemma syncMessage_logs req st s :
  logs (syncMessage req st s) = [{| level := Debug; text := AddingServerReplica req |}].
Proof.
  unfold syncMessage, AddServerReplica, ScheduleFailedModels.
  rewrite !logs_bind, extern_run; simpl.
  destruct (store_AddServerReplica req (env s)) as [e1 [e|]]; simpl; [done|].
  rewrite extern_run; simpl.
  by destruct (scheduler_ScheduleFailedModels e1) as [e2 [k [e|]]].
Qed.

Lemma scheduled_names names sched :
  Forall2 isSchedule names sched -> omap scheduledModel sched = names.
Proof.
  induction 1 as [|n c names sched Hn _ IH]; [done|].
  destruct c as [| | | | | n' res |]; try done. simpl in Hn.
  change (omap scheduledModel (CSchedule n' res :: sched))
    with (n' :: omap scheduledModel sched).
  congruence.
Qed.

Lemma afterSync_agents req st s :
  agents (final (afterSync req st s)) =
  <[requestKey req := {| finished := chans s; stream := st |}]> (agents s).
Proof. unfold afterSync. by rewrite keeps_syncMessage. Qed.

End AgentServerFacts.

(** ** The properties of the server *)

Section AgentServerProperties.

Context {Env : Type}.
Context `{!SchedulerStore Env, !Scheduler Env, !SubscribeServer Env}.

Implicit Types (s : Server (Env:=Env)) (n : string) (mv : ModelVersion) (r : Z).

(** C1: in a reconciliation pass the state of a replica advances only after
    the send succeeded.  Wherever [UpdateModelState] stands among the calls
    of [Sync], the call just before it is the successful send, to the
    connected subscriber of that same replica, of the command for that same
    model version, and the state written is [Loading] for a load command and
    [Unloading] for an unload command.  A send that failed is followed by
    the send of the next replica or by nothing, never by an update. *)
Theorem Sync_advances_only_after_send n s pre c post :
  calls (Sync n s) = pre ++ c :: post ->
  match c with
  | CUpdateModelState k v srv r mem st msg _ =>
      exists pre' sub op mv,
        pre = pre' ++ [CSend (replicaKey mv r) (stream sub) (operationMessage op mv) None]
        /\ agents s !! replicaKey mv r = Some sub
        /\ k = Key mv /\ v = GetVersion mv /\ srv = Server_ mv /\ st = commandState op
  | CSend _ _ _ (Some _) => match post with c' :: _ => isSend c' | [] => True end
  | _ => True
  end.
Proof.
  intros Heq. change (in_order (agents s) pre c post).
  destruct (Sync_calls n s) as [[Hc _] | (model & bs & _ & HF & Hc)]; rewrite Hc in Heq.
  - destruct pre as [|x [|y pre]]; by simplify_eq/=.
  - destruct pre as [|x pre]; simplify_eq/=; [done|].
    apply in_order_cons. by eapply item_calls_in_order.
Qed.

(** C2: the command path and the report path write disjoint sets of states.
    [Sync] writes [Loading] or [Unloading] and nothing else; [AgentEvent]
    writes one state, the image of the reported event, which is [Loaded],
    [Unloaded], [LoadFailed] or [Unknown]; [Subscribe] writes no state. *)
Theorem command_and_report_states_disjoint n message request stream sig s :
  Forall (fun st => st = Loading \/ st = Unloading) (omap writtenState (calls (Sync n s)))
  /\ omap writtenState (calls (AgentEvent message s)) = [eventState (ev_Event message)]
  /\ eventState (ev_Event message) ∈ [Loaded; Unloaded; LoadFailed; ModelReplicaStateUnknown]
  /\ omap writtenState (calls (Subscribe request stream sig s)) = [].
Proof.
  split; [|split; [|split]].
  - apply list.Forall_forall. intros st Hst.
    apply list_elem_of_omap in Hst as (c & Hc & Hw).
    destruct (Sync_calls n s) as [[Heq _] | (model & bs & _ & HF & Heq)]; rewrite Heq in Hc.
    + apply list_elem_of_singleton in Hc as ->. done.
    + apply elem_of_cons in Hc as [-> | Hc]; [done|].
      destruct (item_calls_elem _ _ _ _ HF Hc) as (it & b & _ & Hb & Hcb).
      destruct Hb as [op mv r Hk | op mv r a e Hk | op mv r a res Hk].
      * by apply elem_of_nil in Hcb.
      * apply list_elem_of_singleton in Hcb as ->. done.
      * apply elem_of_cons in Hcb as [-> | Hcb]; [done|].
        apply list_elem_of_singleton in Hcb as ->. simpl in Hw. simplify_eq.
        destruct op; auto.
  - unfold AgentEvent, UpdateModelState. rewrite !calls_bind, extern_run; simpl.
    match goal with |- context [match ?x with _ => _ end] => by destruct x end.
  - destruct (ev_Event message); set_solver.
  - apply omap_all_None.
    eapply list.Forall_impl; [apply Subscribe_calls_quiet|]. by intros c [? _].
Qed.

(** C3: loads go to the latest version only, unloads to every version.
    When the store returns the model, every LOAD_MODEL command sent by the
    pass is for a replica that is [LoadRequested] in the latest version, and
    every such replica that is connected is sent one; every UNLOAD_MODEL
    command is for a replica that is [UnloadRequested] in one of the
    versions, and every such replica of every version that is connected is
    sent one. *)
Theorem Sync_loads_latest_unloads_all n s model :
  (store_GetModel n (env s)).2 = (Some model, None) ->
  (forall key to msg res,
     CSend key to msg res ∈ calls (Sync n s) -> Operation_ msg = LOAD_MODEL ->
     exists latest r,
       GetLatest model = Some latest /\ replicas latest !! r = Some LoadRequested
       /\ key = replicaKey latest r /\ msg = operationMessage LOAD_MODEL latest)
  /\ (forall latest r sub,
        GetLatest model = Some latest -> replicas latest !! r = Some LoadRequested ->
        agents s !! replicaKey latest r = Some sub ->
        exists res, CSend (replicaKey latest r) (stream sub)
                          (operationMessage LOAD_MODEL latest) res ∈ calls (Sync n s))
  /\ (forall key to msg res,
        CSend key to msg res ∈ calls (Sync n s) -> Operation_ msg = UNLOAD_MODEL ->
        exists mv r,
          mv ∈ Versions model /\ replicas mv !! r = Some UnloadRequested
          /\ key = replicaKey mv r /\ msg = operationMessage UNLOAD_MODEL mv)
  /\ (forall mv r sub,
        mv ∈ Versions model -> replicas mv !! r = Some UnloadRequested ->
        agents s !! replicaKey mv r = Some sub ->
        exists res, CSend (replicaKey mv r) (stream sub)
                          (operationMessage UNLOAD_MODEL mv) res ∈ calls (Sync n s)).
Proof.
  intros Hget. repeat split.
  - intros key to msg res Hin Hop.
    destruct (Sync_send_inv _ _ _ _ _ _ _ Hget Hin) as (op & mv & r & sub & Hit & -> & -> & _).
    simpl in Hop. subst op. apply elem_of_workItems in Hit as [Hl Hr]. by exists mv, r.
  - intros latest r sub Hl Hr Hk.
    apply (Sync_send_intro n s model LOAD_MODEL); [done| |done].
    by apply elem_of_workItems.
  - intros key to msg res Hin Hop.
    destruct (Sync_send_inv _ _ _ _ _ _ _ Hget Hin) as (op & mv & r & sub & Hit & -> & -> & _).
    simpl in Hop. subst op. apply elem_of_workItems in Hit as [Hl Hr]. by exists mv, r.
  - intros mv r sub Hl Hr Hk.
    apply (Sync_send_intro n s model UNLOAD_MODEL); [done| |done].
    by apply elem_of_workItems.
Qed.

(** C7: a replica that is not connected is left alone.  For a replica that
    is [LoadRequested] or [UnloadRequested] in a version of the model and
    whose identity has no entry in the registry, the pass sends no command
    to that identity and makes no [UpdateModelState] call for that server and
    replica index, and the registry is as it was. *)
Theorem Sync_skips_unconnected n s model mv r :
  (store_GetModel n (env s)).2 = (Some model, None) ->
  mv ∈ Versions model ->
  replicas mv !! r = Some LoadRequested \/ replicas mv !! r = Some UnloadRequested ->
  agents s !! replicaKey mv r = None ->
  (forall to msg res, CSend (replicaKey mv r) to msg res ∉ calls (Sync n s))
  /\ (forall k v mem st msg res,
        CUpdateModelState k v (Server_ mv) r mem st msg res ∉ calls (Sync n s))
  /\ agents (final (Sync n s)) = agents s.
Proof.
  intros _ _ _ Hk. split; [|split].
  - intros to msg res Hin. apply Sync_call_connected in Hin.
    rewrite Hk in Hin. by destruct Hin.
  - intros k v mem st msg res Hin. apply Sync_call_connected in Hin.
    unfold replicaKey in Hk. rewrite Hk in Hin. by destruct Hin.
  - apply keeps_Sync.
Qed.

(** C4: the disconnect cascade.  When the initial synchronization succeeded
    and the connection closes by peer disconnect, the handler removes the
    entry of the replica from the registry, calls [RemoveServerReplica] once,
    and then calls [Schedule] once for each name the store returned, in
    order, whatever the earlier [Schedule] calls returned; each failed
    [Schedule] leaves one log line and the handler returns no error. *)
Theorem Subscribe_disconnect_reschedules request stream s :
  val (afterSync request stream s) = None ->
  exists sched,
    calls (Subscribe request stream CtxDone s) =
      calls (afterSync request stream s)
      ++ CRemoveServerReplica (req_ServerName request) (req_ReplicaIdx request)
           (store_RemoveServerReplica (req_ServerName request) (req_ReplicaIdx request)
              (env (final (afterSync request stream s)))).2
      :: sched
    /\ Forall2 isSchedule
         (store_RemoveServerReplica (req_ServerName request) (req_ReplicaIdx request)
            (env (final (afterSync request stream s)))).2.1
         sched
    /\ omap scheduledModel (calls (Subscribe request stream CtxDone s)) =
         (store_RemoveServerReplica (req_ServerName request) (req_ReplicaIdx request)
            (env (final (afterSync request stream s)))).2.1
    /\ omap rescheduleFailure (logs (Subscribe request stream CtxDone s)) =
         omap failedSchedule sched
    /\ agents (final (Subscribe request stream CtxDone s)) !! requestKey request = None
    /\ val (Subscribe request stream CtxDone s) = None.
Proof.
  intros Hok.
  destruct (Subscribe_run request stream CtxDone s) as (Hv & Hf & Hc & Hl).
  fold (afterSync request stream s) in Hv, Hf, Hc, Hl. rewrite Hok in Hv, Hf, Hc, Hl.
  destruct (disconnect_run request (final (afterSync request stream s)))
    as (sched & Hdc & Hs & Hdl & Hda & Hdv).
  exists sched. rewrite Hv, Hf, Hc, Hl, Hdc, Hda, Hdv.
  split; [done|]. split; [done|]. split; [|split; [|split; [|done]]].
  - rewrite omap_app.
    assert (omap scheduledModel (calls (afterSync request stream s)) = []) as ->.
    { unfold afterSync. rewrite syncMessage_calls.
      by destruct ((store_AddServerReplica request _).2). }
    exact (scheduled_names _ _ Hs).
  - assert (logs (afterSync request stream s)
            = [{| level := Debug; text := AddingServerReplica request |}]) as ->
      by apply syncMessage_logs.
    exact Hdl.
  - apply lookup_delete_eq.
Qed.

(** C5: the event kind of a report determines the state written.
    [AgentEvent] makes one call, [UpdateModelState] for the reported model,
    version, server and replica, with the state [Loaded] for LOADED,
    [Unloaded] for UNLOADED, [LoadFailed] for LOAD_FAILED and
    LOAD_FAIL_MEMORY, and [Unknown] for every other event kind. *)
Theorem AgentEvent_state_of_event message s :
  calls (AgentEvent message s) =
    [CUpdateModelState (ev_ModelName message) (ev_ModelVersion message)
       (ev_ServerName message) (ev_ReplicaIdx message)
       (Some (ev_AvailableMemoryBytes message))
       match ev_Event message with
       | LOADED => Loaded
       | UNLOADED => Unloaded
       | LOAD_FAILED => LoadFailed
       | LOAD_FAIL_MEMORY => LoadFailed
       | EVENT_OTHER _ => ModelReplicaStateUnknown
       end
       (ev_Message message)
       (store_UpdateModelState (ev_ModelName message) (ev_ModelVersion message)
          (ev_ServerName message) (ev_ReplicaIdx message)
          (Some (ev_AvailableMemoryBytes message)) (eventState (ev_Event message))
          (ev_Message message) (env s)).2].
Proof.
  unfold AgentEvent, UpdateModelState. rewrite !calls_bind, extern_run; simpl.
  destruct (store_UpdateModelState _ _ _ _ _ _ _ _) as [e1 [e|]]; simpl;
    by destruct (ev_Event message).
Qed.

(** C6: [AgentEvent] fails exactly when the store fails to persist the
    state.  If [UpdateModelState] returns the error [e], the result is no
    response and the status [Internal] carrying [e]; otherwise it is the
    empty response and no error. *)
Theorem AgentEvent_error_iff_persist_fails message s :
  val (AgentEvent message s) =
    match (store_UpdateModelState (ev_ModelName message) (ev_ModelVersion message)
             (ev_ServerName message) (ev_ReplicaIdx message)
             (Some (ev_AvailableMemoryBytes message)) (eventState (ev_Event message))
             (ev_Message message) (env s)).2 with
    | Some e => (None, Some {| st_code := Internal; st_msg := e |})
    | None => (Some Build_ModelEventResponse, None)
    end
  /\ (is_Some (val (AgentEvent message s)).2 <->
      is_Some (store_UpdateModelState (ev_ModelName message) (ev_ModelVersion message)
                 (ev_ServerName message) (ev_ReplicaIdx message)
                 (Some (ev_AvailableMemoryBytes message)) (eventState (ev_Event message))
                 (ev_Message message) (env s)).2).
Proof.
  unfold AgentEvent, UpdateModelState. rewrite !val_bind, extern_run; simpl.
  destruct (store_UpdateModelState _ _ _ _ _ _ _ _) as [e1 [e|]]; simpl.
  - split; [done|]. split; eauto.
  - split; [done|]. split; by intros [? ?].
Qed.

(** C8, amended: the initial synchronization of the handler.  On the server
    with the connection record installed, [syncMessage] calls
    [AddServerReplica] with the request and, when that succeeds,
    [ScheduleFailedModels], and nothing else; the record is in the registry
    meanwhile.  The calls of [Subscribe] start with these, and among all of
    them there is no send on any stream and no [UpdateModelState]: the
    handler replays no reconciliation pass. *)
Theorem Subscribe_initial_sync request stream sig s :
  calls (afterSync request stream s) =
    CAddServerReplica request (store_AddServerReplica request (env s)).2 ::
    match (store_AddServerReplica request (env s)).2 with
    | Some _ => []
    | None =>
        [CScheduleFailedModels
           (scheduler_ScheduleFailedModels (store_AddServerReplica request (env s)).1).2]
    end
  /\ agents (final (afterSync request stream s)) !! requestKey request =
       Some {| finished := chans s; stream := stream |}
  /\ (exists rest, calls (Subscribe request stream sig s) =
                   calls (afterSync request stream s) ++ rest)
  /\ omap sentCommand (calls (Subscribe request stream sig s)) = []
  /\ omap writtenState (calls (Subscribe request stream sig s)) = [].
Proof.
  split; [apply (syncMessage_calls request stream (registered request stream s))|].
  split; [|split; [|split]].
  - rewrite afterSync_agents. apply lookup_insert_eq.
  - rewrite Subscribe_calls. eauto.
  - apply omap_all_None.
    eapply list.Forall_impl; [apply Subscribe_calls_quiet|]. by intros c [_ ?].
  - apply omap_all_None.
    eapply list.Forall_impl; [apply Subscribe_calls_quiet|]. by intros c [? _].
Qed.

(** C9, amended: the registry when the handler exits after a successful
    initial synchronization.  On peer disconnect the entry of the replica is
    absent; on the explicit close signal the handler returns without touching
    the registry, and the entry is still the record it installed. *)
Theorem Subscribe_registry_at_exit request stream sig s :
  val (afterSync request stream s) = None ->
  agents (final (Subscribe request stream sig s)) !! requestKey request =
    match sig with
    | CtxDone => None
    | FinSignal => Some {| finished := chans s; stream := stream |}
    end.
Proof.
  intros Hok. destruct (Subscribe_run request stream sig s) as (_ & -> & _).
  fold (afterSync request stream s). rewrite Hok. destruct sig.
  - change (agents (final (afterSync request stream s)) !! requestKey request
            = Some {| finished := chans s; stream := stream |}).
    rewrite afterSync_agents. apply lookup_insert_eq.
  - destruct (disconnect_run request (final (afterSync request stream s)))
      as (sched & _ & _ & _ & -> & _).
    apply lookup_delete_eq.
Qed.

(** C10: a failed initial synchronization leaves the record behind.  If
    [AddServerReplica] returns an error, or succeeds and
    [ScheduleFailedModels] returns one, [Subscribe] returns that error
    whichever signal would have closed the connection, makes no further
    call, and the registry still maps the replica to the record installed
    before the synchronization. *)
Theorem Subscribe_failed_sync_keeps_record request stream sig s e :
  (store_AddServerReplica request (env s)).2 = Some e
  \/ ((store_AddServerReplica request (env s)).2 = None
      /\ (scheduler_ScheduleFailedModels (store_AddServerReplica request (env s)).1).2.2
         = Some e) ->
  val (Subscribe request stream sig s) = Some e
  /\ agents (final (Subscribe request stream sig s)) !! requestKey request =
       Some {| finished := chans s; stream := stream |}
  /\ calls (Subscribe request stream sig s) = calls (afterSync request stream s).
Proof.
  intros Hfail.
  assert (Hv : val (afterSync request stream s) = Some e).
  { unfold afterSync. rewrite syncMessage_val. simpl.
    destruct Hfail as [-> | [-> ->]]; done. }
  destruct (Subscribe_run request stream sig s) as (-> & -> & -> & _).
  fold (afterSync request stream s). rewrite Hv.
  split; [done|]. split; [|apply app_nil_r].
  change (agents (final (afterSync request stream s)) !! requestKey request
          = Some {| finished := chans s; stream := stream |}).
  rewrite afterSync_agents. apply lookup_insert_eq.
Qed.

End AgentServerProperties.

(** ** The properties on the in-memory environment *)

Import MemoryEnv.

(** The pass over "iris" on [server0]: the load for replica 1 fails on its
    broken stream and is followed by the send for replica 0, whose update
    stands right after its successful send. *)
Lemma Sync_advances_only_after_send_witness :
  calls (Sync "iris" server0) =
    [CGetModel "iris" (Some iris, None);
     CSend (replicaKey iris2 1) 8%nat (operationMessage LOAD_MODEL iris2) (Some "stream closed");
     CSend (replicaKey iris2 0) 7%nat (operationMessage LOAD_MODEL iris2) None]
    ++ CUpdateModelState "iris" 2 "serverA" 0 None Loading "" None
    :: [CSend (replicaKey iris1 0) 7%nat (operationMessage UNLOAD_MODEL iris1) None;
        CUpdateModelState "iris" 1 "serverA" 0 None Unloading "" None]
  /\ exists pre' sub op mv,
      [CGetModel "iris" (Some iris, None);
       CSend (replicaKey iris2 1) 8%nat (operationMessage LOAD_MODEL iris2) (Some "stream closed");
       CSend (replicaKey iris2 0) 7%nat (operationMessage LOAD_MODEL iris2) None]
      = pre' ++ [CSend (replicaKey mv 0) (stream sub) (operationMessage op mv) None]
      /\ agents server0 !! replicaKey mv 0 = Some sub
      /\ "iris" = Key mv /\ 2 = GetVersion mv /\ "serverA" = Server_ mv
      /\ Loading = commandState op.
Proof.
  split; [by vm_compute|].
  apply (Sync_advances_only_after_send "iris" server0 _
           (CUpdateModelState "iris" 2 "serverA" 0 None Loading "" None)
           [CSend (replicaKey iris1 0) 7%nat (operationMessage UNLOAD_MODEL iris1) None;
            CUpdateModelState "iris" 1 "serverA" 0 None Unloading "" None]).
  by vm_compute.
Defined.

(** On [server0] the pass over "iris" sends the unload of the superseded
    version 1 to the connected replica 0, and the load it sends to replica 0
    is for version 2, the latest. *)
Lemma Sync_loads_latest_unloads_all_witness :
  (store_GetModel "iris" (env server0)).2 = (Some iris, None)
  /\ (exists res, CSend (replicaKey iris1 0) 7%nat (operationMessage UNLOAD_MODEL iris1) res
                  ∈ calls (Sync "iris" server0))
  /\ (exists latest r,
        GetLatest iris = Some latest /\ replicas latest !! r = Some LoadRequested
        /\ replicaKey iris2 0 = replicaKey latest r
        /\ operationMessage LOAD_MODEL iris2 = operationMessage LOAD_MODEL latest).
Proof.
  assert (Hget : (store_GetModel "iris" (env server0)).2 = (Some iris, None))
    by (by vm_compute).
  destruct (Sync_loads_latest_unloads_all "iris" server0 iris Hget)
    as (Hloads & _ & _ & Hunloads).
  split; [exact Hget|]. split.
  - apply (Hunloads iris1 0 {| finished := 0%nat; stream := 7%nat |}).
    + apply list_elem_of_here.
    + by vm_compute.
    + by vm_compute.
  - apply (Hloads _ 7%nat _ None); [|reflexivity].
    vm_compute. do 2 apply list_elem_of_further. apply list_elem_of_here.
Defined.

(** On [server0] replica 2 of the latest version of "iris" is load-requested
    and not connected: the pass neither sends to it nor updates it. *)
Lemma Sync_skips_unconnected_witness :
  (forall to msg res, CSend (replicaKey iris2 2) to msg res ∉ calls (Sync "iris" server0))
  /\ (forall k v mem st msg res,
        CUpdateModelState k v "serverA" 2 mem st msg res ∉ calls (Sync "iris" server0))
  /\ agents (final (Sync "iris" server0)) = agents server0.
Proof.
  apply (Sync_skips_unconnected "iris" server0 iris iris2 2).
  - by vm_compute.
  - apply list_elem_of_further, list_elem_of_here.
  - left. by vm_compute.
  - by vm_compute.
Defined.

(** On [server2] the replica hosts "wine" and "iris": on disconnect both are
    rescheduled, "iris" after the failed rescheduling of "wine", which is
    logged. *)
Lemma Subscribe_disconnect_reschedules_witness :
  exists sched,
    calls (Subscribe requestA0 9%nat CtxDone server2) =
      calls (afterSync requestA0 9%nat server2)
      ++ CRemoveServerReplica "serverA" 0
           (store_RemoveServerReplica "serverA" 0
              (env (final (afterSync requestA0 9%nat server2)))).2
      :: sched
    /\ Forall2 isSchedule
         (store_RemoveServerReplica "serverA" 0
            (env (final (afterSync requestA0 9%nat server2)))).2.1 sched
    /\ omap scheduledModel (calls (Subscribe requestA0 9%nat CtxDone server2)) =
         (store_RemoveServerReplica "serverA" 0
            (env (final (afterSync requestA0 9%nat server2)))).2.1
    /\ omap rescheduleFailure (logs (Subscribe requestA0 9%nat CtxDone server2)) =
         omap failedSchedule sched
    /\ agents (final (Subscribe requestA0 9%nat CtxDone server2)) !! requestKey requestA0
       = None
    /\ val (Subscribe requestA0 9%nat CtxDone server2) = None.
Proof. apply (Subscribe_disconnect_reschedules requestA0 9%nat server2). by vm_compute. Defined.

(** The calls of that run, in full. *)
Example Subscribe_disconnect_on_server2 :
  calls (Subscribe requestA0 9%nat CtxDone server2) =
    [CAddServerReplica requestA0 None;
     CScheduleFailedModels (0, None);
     CRemoveServerReplica "serverA" 0 (["wine"; "iris"], None);
     CSchedule "wine" (Some "no placement");
     CSchedule "iris" None]
  /\ omap rescheduleFailure (logs (Subscribe requestA0 9%nat CtxDone server2)) = ["wine"].
Proof. by vm_compute. Qed.

(** C8, as stated, fails on [server1]: "iris" is assigned to replica 0 of
    serverA, with a load pending in version 2 and an unload pending in
    version 1.  Replaying the reconciliation pass for "iris" once the replica
    is registered sends both commands on its stream; the handler sends none. *)
Lemma initial_sync_replay_counterexample :
  omap sentCommand (calls (Subscribe requestA0 7%nat FinSignal server1)) = []
  /\ omap sentCommand
       (calls (initialSync_spec ["iris"] (registered requestA0 7%nat server1))) =
     [(requestKey requestA0, operationMessage LOAD_MODEL iris2);
      (requestKey requestA0, operationMessage UNLOAD_MODEL iris1)]
  /\ omap sentCommand (calls (Subscribe requestA0 7%nat FinSignal server1)) <>
     omap sentCommand
       (calls (initialSync_spec ["iris"] (registered requestA0 7%nat server1))).
Proof. by vm_compute. Qed.

(** C9, as stated, fails on [server1]: closed by the explicit signal, the
    handler leaves the entry of the replica in the registry. *)
Lemma Subscribe_record_removed_counterexample :
  ~ (forall sig,
       agents (final (Subscribe requestA0 9%nat sig server1)) !! requestKey requestA0 = None).
Proof. intros Hall. specialize (Hall FinSignal). by vm_compute in Hall. Qed.

Lemma Subscribe_registry_at_exit_witness :
  agents (final (Subscribe requestA0 9%nat FinSignal server1)) !! requestKey requestA0 =
    Some {| finished := 0%nat; stream := 9%nat |}
  /\ agents (final (Subscribe requestA0 9%nat CtxDone server1)) !! requestKey requestA0 = None.
Proof.
  split.
  - apply (Subscribe_registry_at_exit requestA0 9%nat FinSignal server1). by vm_compute.
  - apply (Subscribe_registry_at_exit requestA0 9%nat CtxDone server1). by vm_compute.
Defined.

(** On [server3] the retry of the unplaceable models fails: [Subscribe]
    returns the error and the record stays in the registry. *)
Lemma Subscribe_failed_sync_keeps_record_witness :
  val (Subscribe requestA0 9%nat CtxDone server3) = Some "retry failed"
  /\ agents (final (Subscribe requestA0 9%nat CtxDone server3)) !! requestKey requestA0 =
       Some {| finished := 0%nat; stream := 9%nat |}
  /\ calls (Subscribe requestA0 9%nat CtxDone server3) =
       calls (afterSync requestA0 9%nat server3).
Proof.
  apply (Subscribe_failed_sync_keeps_record requestA0 9%nat CtxDone server3 "retry failed").
  right. by vm_compute.
Defined.

(** The store after the pass over "iris" on [server0]: replica 0 advanced in
    both versions; replica 1, whose send failed, and replica 2, which is not
    connected, are still [LoadRequested]. *)
Example Sync_on_server0_states :
  (fun m => (fun mv => (replicas mv !! 0, replicas mv !! 1, replicas mv !! 2)) <$> Versions m)
    <$> models (env (final (Sync "iris" server0))) !! "iris"
  = Some [(Some Unloading, None, None);
          (Some Loading, Some LoadRequested, Some LoadRequested)]
  /\ outbox (env (final (Sync "iris" server0))) =
       [(7%nat, operationMessage LOAD_MODEL iris2);
        (7%nat, operationMessage UNLOAD_MODEL iris1)].
Proof. by vm_compute. Qed.

(** A report of an event kind the server does not know is persisted as
    [Unknown] and acknowledged. *)
Example AgentEvent_unknown_kind :
  let message :=
    {| ev_ServerName := "serverA"; ev_ReplicaIdx := 0; ev_ModelName := "iris";
       ev_ModelVersion := 2; ev_Event := EVENT_OTHER 42; ev_Message := "";
       ev_AvailableMemoryBytes := 1000 |} in
  val (AgentEvent message server0) = (Some Build_ModelEventResponse, None)
  /\ calls (AgentEvent message server0) =
       [CUpdateModelState "iris" 2 "serverA" 0 (Some 1000) ModelReplicaStateUnknown "" None].
Proof. by vm_compute. Qed.

(** A report for a model the store does not hold fails with [Internal]. *)
Example AgentEvent_persist_failure :
  let message :=
    {| ev_ServerName := "serverA"; ev_ReplicaIdx := 0; ev_ModelName := "other";
       ev_ModelVersion := 1; ev_Event := LOADED; ev_Message := "";
       ev_AvailableMemoryBytes := 1000 |} in
  val (AgentEvent message server0) =
    (None, Some {| st_code := Internal; st_msg := "model not found" |}).
Proof. by vm_compute. Qed.

(** ** More on the reconciliation pass *)

(** The command a work item puts on the wire, if its replica is connected. *)
Definition itemCommand (ags : gmap ServerKey AgentSubscriber) (it : Item)
    : option (ServerKey * ModelOperationMessage) :=
  let '(op, mv, r) := it in
  match ags !! replicaKey mv r with
  | Some _ => Some (replicaKey mv r, operationMessage op mv)
  | None => None
  end.

(** The log line that opens the work on an item. *)
Definition sendingLine (n : string) (op : Operation) : LogEntry :=
  {| level := Info;
     text := match op with LOAD_MODEL => SendingLoad n | UNLOAD_MODEL => SendingUnload n end |}.

(** The calls and the log lines of one work item of the pass over model [n]:
    replica not connected, send failed, update failed, or all done. *)
Inductive item_run (n : string) (ags : gmap ServerKey AgentSubscriber)
    : Item -> list Call * list LogEntry -> Prop :=
| run_absent op mv r :
    ags !! replicaKey mv r = None ->
    item_run n ags (op, mv, r)
      ([], [sendingLine n op;
            {| level := Error; text := NoServerReplica (Server_ mv) r |}])
| run_send_failed op mv r a e :
    ags !! replicaKey mv r = Some a ->
    item_run n ags (op, mv, r)
      ([CSend (replicaKey mv r) (stream a) (operationMessage op mv) (Some e)],
       [sendingLine n op; {| level := Error; text := SendFailed n r e |}])
| run_update_failed op mv r a e :
    ags !! replicaKey mv r = Some a ->
    item_run n ags (op, mv, r)
      ([CSend (replicaKey mv r) (stream a) (operationMessage op mv) None;
        CUpdateModelState (Key mv) (GetVersion mv) (Server_ mv) r None (commandState op) ""
          (Some e)],
       [sendingLine n op; {| level := Error; text := SetStateFailed n r e |}])
| run_done op mv r a :
    ags !! replicaKey mv r = Some a ->
    item_run n ags (op, mv, r)
      ([CSend (replicaKey mv r) (stream a) (operationMessage op mv) None;
        CUpdateModelState (Key mv) (GetVersion mv) (Server_ mv) r None (commandState op) ""
          None],
       [sendingLine n op]).

Definition isErrorLine (l : LogEntry) : bool :=
  match level l with Error => true | _ => false end.

Definition isCompletedUpdate (c : Call) : bool :=
  match c with CUpdateModelState _ _ _ _ _ _ _ None => true | _ => false end.

Section PassFacts.

Context {Env : Type}.
Context `{!SchedulerStore Env, !Scheduler Env, !SubscribeServer Env}.

Implicit Types (s : Server (Env:=Env)) (n : string) (mv : ModelVersion) (r : Z).

Lemma syncLoad_run n mv r s :
  item_run n (agents s) (LOAD_MODEL, mv, r)
           (calls (syncLoad n mv r s), logs (syncLoad n mv r s)).
Proof.
  unfold syncLoad, Send, UpdateModelState.
  rewrite !calls_bind, !logs_bind; simpl.
  fold (replicaKey mv r).
  destruct (agents s !! replicaKey mv r) as [a|] eqn:Hk; simpl.
  - rewrite ?calls_bind, ?logs_bind, !extern_run; simpl.
    destruct (stream_Send (stream a) (operationMessage LOAD_MODEL mv) (env s)) as [e1 [e|]];
      simpl.
    + by apply (run_send_failed n _ LOAD_MODEL).
    + rewrite ?calls_bind, ?logs_bind, !extern_run; simpl.
      destruct (store_UpdateModelState _ _ _ _ _ _ _ _) as [e2 [e|]]; simpl.
      * by apply (run_update_failed n _ LOAD_MODEL).
      * by apply (run_done n _ LOAD_MODEL).
  - by apply (run_absent n _ LOAD_MODEL).
Qed.

Lemma syncUnload_run n mv r s :
  item_run n (agents s) (UNLOAD_MODEL, mv, r)
           (calls (syncUnload n mv r s), logs (syncUnload n mv r s)).
Proof.
  unfold syncUnload, Send, UpdateModelState.
  rewrite !calls_bind, !logs_bind; simpl.
  fold (replicaKey mv r).
  destruct (agents s !! replicaKey mv r) as [a|] eqn:Hk; simpl.
  - rewrite ?calls_bind, ?logs_bind, !extern_run; simpl.
    destruct (stream_Send (stream a) (operationMessage UNLOAD_MODEL mv) (env s)) as [e1 [e|]];
      simpl.
    + by apply (run_send_failed n _ UNLOAD_MODEL).
    + rewrite ?calls_bind, ?logs_bind, !extern_run; simpl.
      destruct (store_UpdateModelState _ _ _ _ _ _ _ _) as [e2 [e|]]; simpl.
      * by apply (run_update_failed n _ UNLOAD_MODEL).
      * by apply (run_done n _ UNLOAD_MODEL).
  - by apply (run_absent n _ UNLOAD_MODEL).
Qed.

Lemma forRange_run {A} n (ags : gmap ServerKey AgentSubscriber)
    (item : A -> Item) (l : list A) (body : A -> M unit) s :
  (forall x, keeps_agents (body x)) ->
  (forall x s', item_run n (agents s') (item x) (calls (body x s'), logs (body x s'))) ->
  agents s = ags ->
  exists rs, Forall2 (item_run n ags) (item <$> l) rs
             /\ calls (forRange l body s) = mjoin (rs.*1)
             /\ logs (forRange l body s) = mjoin (rs.*2).
Proof.
  intros Hk Hb. revert s. induction l as [|x l IH]; intros s Hs.
  - exists []. split; [constructor | done].
  - destruct (IH (final (body x s))) as (rs & Hrs & Hc & Hl).
    { by rewrite Hk. }
    exists ((calls (body x s), logs (body x s)) :: rs). split; [|split].
    + constructor; [|done]. rewrite <- Hs. apply Hb.
    + simpl. by rewrite Hc.
    + simpl. by rewrite Hl.
Qed.

Lemma syncUnloads_run n model s :
  exists rs, Forall2 (item_run n (agents s)) (unloadItems model) rs
             /\ calls (syncUnloads n model s) = mjoin (rs.*1)
             /\ logs (syncUnloads n model s) = mjoin (rs.*2).
Proof.
  unfold syncUnloads, unloadItems. generalize (eq_refl (agents s)).
  generalize (agents s) at 1 3 as ags. intros ags. revert s.
  induction (Versions model) as [|mv l IH]; intros s Hs.
  - exists []. split; [constructor | done].
  - simpl.
    destruct (forRange_run n ags (fun r => (UNLOAD_MODEL, mv, r))
                (GetReplicaForState mv UnloadRequested) (syncUnload n mv) s)
      as (r1 & Hr1 & Hc1 & Hl1); auto using keeps_syncUnload, syncUnload_run.
    destruct (IH (final (forRange (GetReplicaForState mv UnloadRequested)
                                  (syncUnload n mv) s))) as (r2 & Hr2 & Hc2 & Hl2).
    { rewrite keeps_forRange; auto using keeps_syncUnload. }
    exists (r1 ++ r2). split; [by apply Forall2_app|].
    rewrite !fmap_app, !join_app, Hc1, Hc2, Hl1, Hl2. done.
Qed.

(** The calls and the log lines of a pass that found its model. *)
Lemma Sync_run n s model :
  (store_GetModel n (env s)).2 = (Some model, None) ->
  exists rs, Forall2 (item_run n (agents s)) (workItems model) rs
             /\ calls (Sync n s) = CGetModel n (Some model, None) :: mjoin (rs.*1)
             /\ logs (Sync n s) = mjoin (rs.*2).
Proof.
  intros Hget. unfold Sync, GetModel.
  rewrite calls_bind, logs_bind, extern_run; simpl. rewrite Hget.
  set (s1 := {| agents := agents s; env := _; chans := chans s |}).
  assert (exists q1, Forall2 (item_run n (agents s)) (loadItems model) q1
                     /\ calls (syncLoads n model s1) = mjoin (q1.*1)
                     /\ logs (syncLoads n model s1) = mjoin (q1.*2)) as (q1 & Hq1 & Hc1 & Hl1).
  { unfold syncLoads, loadItems. destruct (GetLatest model) as [latest|].
    - apply forRange_run; auto using keeps_syncLoad, syncLoad_run.
    - exists []. split; [constructor | done]. }
  destruct (syncUnloads_run n model (final (syncLoads n model s1))) as (q2 & Hq2 & Hc2 & Hl2).
  assert (Hk : keeps_agents (syncLoads n model)).
  { unfold syncLoads. destruct (GetLatest model); [|apply keeps_ret].
    apply keeps_forRange; auto using keeps_syncLoad. }
  rewrite Hk in Hq2. simpl in Hq2.
  exists (q1 ++ q2). split; [by apply Forall2_app|].
  rewrite !calls_bind, !logs_bind, !fmap_app, !join_app, Hc1, Hc2, Hl1, Hl2. done.
Qed.

End PassFacts.

Section PassProperties.

Context {Env : Type}.
Context `{!SchedulerStore Env, !Scheduler Env, !SubscribeServer Env}.

Implicit Types (s : Server (Env:=Env)) (n : string) (mv : ModelVersion) (r : Z).

Lemma item_run_commands n ags items rs :
  Forall2 (item_run n ags) items rs ->
  omap sentCommand (mjoin (rs.*1)) = omap (itemCommand ags) items.
Proof.
  induction 1 as [|it [b l] items rs Hit _ IH]; [done|].
  change (mjoin ((b, l) :: rs).*1) with (b ++ mjoin rs.*1). rewrite omap_app, IH.
  change (omap (itemCommand ags) (it :: items))
    with (match itemCommand ags it with
          | Some c => c :: omap (itemCommand ags) items
          | None => omap (itemCommand ags) items
          end).
  inversion Hit as [op mv r Hk | op mv r a e Hk | op mv r a e Hk | op mv r a Hk];
    subst; simpl; unfold itemCommand; by rewrite Hk.
Qed.

Lemma item_run_accounted n ags items rs :
  Forall2 (item_run n ags) items rs ->
  (length (filter (fun l => isErrorLine l) (mjoin (rs.*2)))
   + length (filter (fun c => isCompletedUpdate c) (mjoin (rs.*1))))%nat = length items
  /\ filter (fun l => negb (isErrorLine l)) (mjoin (rs.*2))
     = (fun it : Item => sendingLine n it.1.1) <$> items.
Proof.
  induction 1 as [|it [b l] items rs Hit _ [IH1 IH2]]; [done|].
  change (mjoin ((b, l) :: rs).*1) with (b ++ mjoin rs.*1).
  change (mjoin ((b, l) :: rs).*2) with (l ++ mjoin rs.*2).
  rewrite !list.filter_app, !length_app, IH2.
  inversion Hit as [op mv r Hk | op mv r a e Hk | op mv r a e Hk | op mv r a Hk];
    subst; (split; [simpl in *; lia | by destruct op]).
Qed.

Lemma item_run_send_then_update n ags items rs :
  Forall2 (item_run n ags) items rs ->
  forall pre key to msg post,
    mjoin (rs.*1) = pre ++ CSend key to msg None :: post ->
    exists op mv r res post',
      post = CUpdateModelState (Key mv) (GetVersion mv) (Server_ mv) r None
               (commandState op) "" res :: post'
      /\ key = replicaKey mv r /\ msg = operationMessage op mv /\ (op, mv, r) ∈ items.
Proof.
  induction 1 as [|it [b l] items rs Hit _ IH]; intros pre key to msg post Heq.
  { by destruct pre. }
  change (mjoin ((b, l) :: rs).*1) with (b ++ mjoin rs.*1) in Heq.
  assert (Hrec : forall pre0, mjoin (rs.*1) = pre0 ++ CSend key to msg None :: post ->
          exists op mv r res post',
            post = CUpdateModelState (Key mv) (GetVersion mv) (Server_ mv) r None
                     (commandState op) "" res :: post'
            /\ key = replicaKey mv r /\ msg = operationMessage op mv
            /\ (op, mv, r) ∈ it :: items).
  { intros pre0 Heq'. destruct (IH _ _ _ _ _ Heq') as (op & mv & r & res & post' & ? & ? & ? & ?).
    exists op, mv, r, res, post'. repeat split; try done. by apply list_elem_of_further. }
  inversion Hit as [op mv r Hk | op mv r a e Hk | op mv r a e Hk | op mv r a Hk];
    subst; simpl in Heq.
  - by eapply Hrec.
  - destruct pre as [|x pre]; simplify_eq/=. by eapply Hrec.
  - destruct pre as [|x [|y pre]]; simplify_eq/=.
    + exists op, mv, r, (Some e), (mjoin (rs.*1)). repeat split; try done.
      apply list_elem_of_here.
    + by eapply Hrec.
  - destruct pre as [|x [|y pre]]; simplify_eq/=.
    + exists op, mv, r, None, (mjoin (rs.*1)). repeat split; try done.
      apply list_elem_of_here.
    + by eapply Hrec.
Qed.

(** X1: a pass without its model stops at the lookup.  When the store
    returns an error, or no error and no model, the lookup is the only call
    of the pass, one error line is logged, and nothing but the environment
    the lookup left has changed. *)
Theorem Sync_without_model n s :
  (forall model, (store_GetModel n (env s)).2 <> (Some model, None)) ->
  calls (Sync n s) = [CGetModel n (store_GetModel n (env s)).2]
  /\ logs (Sync n s) =
       [{| level := Error;
           text := match (store_GetModel n (env s)).2.2 with
                   | Some e => SyncFailed e
                   | None => ModelNotFound n
                   end |}]
  /\ final (Sync n s) =
       {| agents := agents s; env := (store_GetModel n (env s)).1; chans := chans s |}.
Proof.
  intros Hno. unfold Sync, GetModel.
  rewrite calls_bind, logs_bind, final_bind, extern_run; simpl.
  destruct (store_GetModel n (env s)) as [e1 [[model|] [e|]]]; simpl in *; try done.
  by destruct (Hno model).
Qed.

(** X2: the commands of a pass.  The commands sent, in order, are those of
    the work items whose replica is connected: the loads of the latest
    version first, then the unloads of every version, one command per item.
    Whether an earlier send or update failed has no bearing on the later
    ones. *)
Theorem Sync_commands_sent n s model :
  (store_GetModel n (env s)).2 = (Some model, None) ->
  omap sentCommand (calls (Sync n s)) =
  omap (itemCommand (agents s)) (loadItems model ++ unloadItems model).
Proof.
  intros Hget. destruct (Sync_run n s model Hget) as (rs & Hrs & -> & _).
  change (omap sentCommand (CGetModel n (Some model, None) :: mjoin (rs.*1)))
    with (omap sentCommand (mjoin (rs.*1))).
  by apply (item_run_commands n).
Qed.

(** X3: a command that was sent is recorded.  Every successful send of a
    pass is immediately followed by the [UpdateModelState] call for the same
    replica and version, to [Loading] after a load and to [Unloading] after
    an unload. *)
Theorem Sync_send_then_update n s pre key to msg post :
  calls (Sync n s) = pre ++ CSend key to msg None :: post ->
  exists op mv r res post',
    post = CUpdateModelState (Key mv) (GetVersion mv) (Server_ mv) r None
             (commandState op) "" res :: post'
    /\ key = replicaKey mv r /\ msg = operationMessage op mv.
Proof.
  intros Heq.
  destruct (Sync_calls n s) as [[Hc _] | (model & bs & Hget & _ & _)].
  - rewrite Hc in Heq. destruct pre as [|x [|y pre]]; by simplify_eq/=.
  - destruct (Sync_run n s model Hget) as (rs & Hrs & Hc & _). rewrite Hc in Heq.
    destruct pre as [|x pre]; [done|]. injection Heq as _ Heq.
    destruct (item_run_send_then_update _ _ _ _ Hrs _ _ _ _ _ Heq)
      as (op & mv & r & res & post' & ? & ? & ? & _).
    by exists op, mv, r, res, post'.
Qed.

(** X4: no work item is dropped silently.  A pass logs the line that
    announces the command once per work item, in order, and every work item
    ends either in a successful [UpdateModelState] or in exactly one error
    line (replica not connected, send failed, or update failed). *)
Theorem Sync_every_item_accounted n s model :
  (store_GetModel n (env s)).2 = (Some model, None) ->
  (length (filter (fun l => isErrorLine l) (logs (Sync n s)))
   + length (filter (fun c => isCompletedUpdate c) (calls (Sync n s))))%nat
  = length (loadItems model ++ unloadItems model)
  /\ filter (fun l => negb (isErrorLine l)) (logs (Sync n s))
     = (fun it : Item => sendingLine n it.1.1) <$> (loadItems model ++ unloadItems model).
Proof.
  intros Hget. destruct (Sync_run n s model Hget) as (rs & Hrs & -> & ->).
  destruct (item_run_accounted _ _ _ _ Hrs) as [H1 H2]. split; [|done].
  rewrite filter_cons_False by (simpl; tauto). exact H1.
Qed.

End PassProperties.

(** ** More on the subscribe handler *)

Section HandlerProperties.

Context {Env : Type}.
Context `{!SchedulerStore Env, !Scheduler Env, !SubscribeServer Env}.

Implicit Types (s : Server (Env:=Env)) (n : string) (mv : ModelVersion) (r : Z).

Lemma Subscribe_agents request stream sig s :
  agents (final (Subscribe request stream sig s)) =
    match val (afterSync request stream s), sig with
    | None, CtxDone => delete (requestKey request) (agents s)
    | _, _ => <[requestKey request := {| finished := chans s; stream := stream |}]> (agents s)
    end.
Proof.
  destruct (Subscribe_run request stream sig s) as (_ & -> & _).
  fold (afterSync request stream s).
  destruct (val (afterSync request stream s)) as [e|].
  - apply afterSync_agents.
  - destruct sig.
    + apply afterSync_agents.
    + destruct (disconnect_run request (final (afterSync request stream s)))
        as (sched & _ & _ & _ & -> & _).
      rewrite afterSync_agents. apply delete_insert_eq.
Qed.

(** X5: the handler touches one entry of the registry.  Whatever the
    outcome of the initial synchronization and whichever signal closes the
    connection, the entry of every other replica is as it was before. *)
Theorem Subscribe_other_entries request stream sig s k :
  k <> requestKey request ->
  agents (final (Subscribe request stream sig s)) !! k = agents s !! k.
Proof.
  intros Hk. rewrite Subscribe_agents.
  destruct (val _), sig; by rewrite ?lookup_insert_ne, ?lookup_delete_ne.
Qed.

(** X6: the only error [Subscribe] returns is the one of the initial
    synchronization.  Its result is the result of [syncMessage], for either
    signal: a failing [RemoveServerReplica] or [Schedule] during the
    disconnect is logged and never returned. *)
Theorem Subscribe_result request stream sig s :
  val (Subscribe request stream sig s) = val (afterSync request stream s).
Proof.
  destruct (Subscribe_run request stream sig s) as (-> & _).
  fold (afterSync request stream s).
  destruct (val (afterSync request stream s)) as [e|] eqn:Hv; [done|].
  destruct sig; [done|].
  by destruct (disconnect_run request (final (afterSync request stream s)))
    as (sched & _ & _ & _ & _ & ->).
Qed.

(** X7: the explicit close does nothing further.  When the connection is
    closed by the [finished] signal, the server is left as the initial
    synchronization left it and no call is made after it: the store is not
    told about the replica and nothing is rescheduled. *)
Theorem Subscribe_explicit_close request stream s :
  final (Subscribe request stream FinSignal s) = final (afterSync request stream s)
  /\ calls (Subscribe request stream FinSignal s) = calls (afterSync request stream s).
Proof.
  destruct (Subscribe_run request stream FinSignal s) as (_ & -> & -> & _).
  fold (afterSync request stream s).
  destruct (val (afterSync request stream s)); split; try done; apply app_nil_r.
Qed.

(** X8: connect followed by disconnect.  After a successful initial
    synchronization and a peer disconnect the registry is the one before the
    subscribe without the entry of the replica; if the replica had no entry
    before, the registry is exactly as it was. *)
Theorem Subscribe_then_disconnect request stream s :
  val (afterSync request stream s) = None ->
  agents (final (Subscribe request stream CtxDone s)) = delete (requestKey request) (agents s)
  /\ (agents s !! requestKey request = None ->
      agents (final (Subscribe request stream CtxDone s)) = agents s).
Proof.
  intros Hok. rewrite Subscribe_agents, Hok. split; [done|].
  intros Hfresh. by apply delete_id.
Qed.

(** X9: a pass that runs while the replica is subscribed reaches it on its
    new stream.  On the server as the initial synchronization left it, every
    work item of the pass whose replica is the subscribed one has its command
    sent on the stream of this subscription. *)
Theorem Sync_during_subscription request stream s n model (op : Operation) mv r :
  (store_GetModel n (env (final (afterSync request stream s)))).2 = (Some model, None) ->
  match op with
  | LOAD_MODEL => GetLatest model = Some mv
  | UNLOAD_MODEL => mv ∈ Versions model
  end ->
  replicas mv !! r = Some (requestedState op) ->
  Server_ mv = req_ServerName request ->
  uint32 r = req_ReplicaIdx request ->
  exists res,
    CSend (requestKey request) stream (operationMessage op mv) res
    ∈ calls (Sync n (final (afterSync request stream s))).
Proof.
  intros Hget Hmv Hr Hsrv Hidx.
  assert (Hkey : replicaKey mv r = requestKey request).
  { unfold replicaKey, requestKey. by rewrite Hsrv, Hidx. }
  destruct (Sync_send_intro n (final (afterSync request stream s)) model op mv r
              {| finished := chans s; stream := stream |}) as [res Hres].
  - done.
  - by apply elem_of_workItems.
  - rewrite afterSync_agents, Hkey. apply lookup_insert_eq.
  - exists res. by rewrite <- Hkey.
Qed.

(** X10: the disconnect removes the entry by key alone.  If a second
    subscription for the same replica has replaced the record, the disconnect
    of the first handler still deletes the entry, and the replica of the
    live second connection is left without one. *)
Theorem disconnect_removes_newer_record request request' stream' s :
  requestKey request' = requestKey request ->
  agents (final (afterSync request' stream' s)) !! requestKey request'
    = Some {| finished := chans s; stream := stream' |}
  /\ agents (final (disconnect request (final (afterSync request' stream' s))))
       !! requestKey request' = None.
Proof.
  intros Hkey. split.
  - rewrite afterSync_agents. apply lookup_insert_eq.
  - destruct (disconnect_run request (final (afterSync request' stream' s)))
      as (sched & _ & _ & _ & -> & _).
    rewrite Hkey. apply lookup_delete_eq.
Qed.

End HandlerProperties.

(** *** The pass and the handler on the in-memory environment *)

(** The store of [server0] holds no model "other". *)
Lemma Sync_without_model_witness :
  calls (Sync "other" server0) = [CGetModel "other" (None, None)]
  /\ logs (Sync "other" server0) = [{| level := Error; text := ModelNotFound "other" |}]
  /\ final (Sync "other" server0) = server0.
Proof.
  destruct (Sync_without_model "other" server0) as (Hc & Hl & Hf).
  - intros model. by vm_compute.
  - rewrite Hc, Hl, Hf. by vm_compute.
Defined.

(** On [server0] replicas 0 and 1 are connected, replica 2 is not: the load
    goes to replicas 1 and 0, then the unload of version 1 to replica 0. *)
Lemma Sync_commands_sent_witness :
  omap sentCommand (calls (Sync "iris" server0)) =
    [(replicaKey iris2 1, operationMessage LOAD_MODEL iris2);
     (replicaKey iris2 0, operationMessage LOAD_MODEL iris2);
     (replicaKey iris1 0, operationMessage UNLOAD_MODEL iris1)].
Proof.
  rewrite (Sync_commands_sent "iris" server0 iris) by (by vm_compute).
  by vm_compute.
Defined.

Lemma Sync_send_then_update_witness :
  exists op mv r res post',
    [CUpdateModelState "iris" 2 "serverA" 0 None Loading "" None;
     CSend (replicaKey iris1 0) 7%nat (operationMessage UNLOAD_MODEL iris1) None;
     CUpdateModelState "iris" 1 "serverA" 0 None Unloading "" None]
    = CUpdateModelState (Key mv) (GetVersion mv) (Server_ mv) r None
        (commandState op) "" res :: post'
    /\ replicaKey iris2 0 = replicaKey mv r
    /\ operationMessage LOAD_MODEL iris2 = operationMessage op mv.
Proof.
  apply (Sync_send_then_update "iris" server0
           [CGetModel "iris" (Some iris, None);
            CSend (replicaKey iris2 1) 8%nat (operationMessage LOAD_MODEL iris2)
                  (Some "stream closed")]
           (replicaKey iris2 0) 7%nat (operationMessage LOAD_MODEL iris2)).
  by vm_compute.
Defined.

(** Four work items on [server0]: two completed updates, two error lines. *)
Lemma Sync_every_item_accounted_witness :
  (length (filter (fun l => isErrorLine l) (logs (Sync "iris" server0)))
   + length (filter (fun c => isCompletedUpdate c) (calls (Sync "iris" server0))))%nat
  = 4%nat
  /\ filter (fun l => negb (isErrorLine l)) (logs (Sync "iris" server0))
     = [sendingLine "iris" LOAD_MODEL; sendingLine "iris" LOAD_MODEL;
        sendingLine "iris" LOAD_MODEL; sendingLine "iris" UNLOAD_MODEL].
Proof.
  destruct (Sync_every_item_accounted "iris" server0 iris) as [H1 H2].
  - by vm_compute.
  - rewrite H1, H2. clear. by vm_compute.
Defined.

(** Replica 0 of serverA subscribes anew on [server0] and disconnects: the
    entry of replica 1 is untouched. *)
Lemma Subscribe_other_entries_witness :
  agents (final (Subscribe requestA0 9%nat CtxDone server0))
    !! {| serverName := "serverA"; replicaIdx := 1 |}
  = Some {| finished := 1%nat; stream := 8%nat |}.
Proof.
  rewrite (Subscribe_other_entries requestA0 9%nat CtxDone server0
             {| serverName := "serverA"; replicaIdx := 1 |}) by done.
  by vm_compute.
Defined.

Lemma Subscribe_then_disconnect_witness :
  agents (final (Subscribe requestA0 9%nat CtxDone server1)) = agents server1.
Proof.
  destruct (Subscribe_then_disconnect requestA0 9%nat server1) as [_ Hfresh].
  - by vm_compute.
  - apply Hfresh. by vm_compute.
Defined.

(** Replica 0 of serverA subscribes on stream 9 over the empty registry of
    [server1]: a pass over "iris" sends it the pending load of version 2. *)
Lemma Sync_during_subscription_witness :
  exists res,
    CSend (requestKey requestA0) 9%nat (operationMessage LOAD_MODEL iris2) res
    ∈ calls (Sync "iris" (final (afterSync requestA0 9%nat server1))).
Proof.
  apply (Sync_during_subscription requestA0 9%nat server1 "iris" iris LOAD_MODEL iris2 0);
    by vm_compute.
Defined.

Lemma disconnect_removes_newer_record_witness :
  agents (final (afterSync requestA0 9%nat server0)) !! requestKey requestA0
    = Some {| finished := 2%nat; stream := 9%nat |}
  /\ agents (final (disconnect requestA0 (final (afterSync requestA0 9%nat server0))))
       !! requestKey requestA0 = None.
Proof. apply (disconnect_removes_newer_record requestA0 requestA0 9%nat server0). done. Defined.

(** * The stream topology of a pipeline step

    A shallow embedding of the Kotlin functions of [io.seldon.dataflow.kafka]
    that turn the source names of a pipeline step into a projection of topics
    and tensors ([parseSource], [parseSources], [areTensorsFromSameTopic],
    [transformerFor], [nameFor]).

    A Kotlin [String] is a [string] here; a [Set] is a [gset] and a [Map] a
    [gmap], both compared by their elements as Kotlin compares them; a
    nullable [T?] is an [option]. *)

Module Dataflow.

Import Stdlib.Strings.Ascii.

(** ** Kotlin's string functions *)

(** [s.lastIndexOf(c)] for a delimiter of one character; [None] is -1. *)
Fixpoint lastIndexOf (c : Ascii.ascii) (s : string) : option nat :=
  match s with
  | EmptyString => None
  | String x s' =>
      match lastIndexOf c s' with
      | Some i => Some (S i)
      | None => if decide (x = c) then Some 0%nat else None
      end
  end.

(** [s.substringAfterLast(c, missingDelimiterValue)] *)
Definition substringAfterLast (c : Ascii.ascii) (missingDelimiterValue : string) (s : string)
    : string :=
  match lastIndexOf c s with
  | None => missingDelimiterValue
  | Some index => String.substring (index + 1) (String.length s - (index + 1)) s
  end.

(** [s.substringBeforeLast(c)], whose missing-delimiter value is [s]. *)
Definition substringBeforeLast (c : Ascii.ascii) (s : string) : string :=
  match lastIndexOf c s with
  | None => s
  | Some index => String.substring 0 index s
  end.

(** [l.joinToString(sep)] *)
Definition joinToString (sep : string) (l : list string) : string := String.concat sep l.

(** ** parseSource *)

Definition parseSource (source : string) : string * option string :=
  let last := substringAfterLast "."%char "" source in
  if decide (last = "") then (last, None)
  else if decide (last = "inputs" \/ last = "outputs") then (source, None)
  else (substringBeforeLast "."%char source, Some last).

(** ** parseSources *)

Record TopicTensors := { topicName : string; tensors : gset string }.

Inductive SourceProjection :=
| SourceProjection_Empty
| SourceProjection_Single (topicName : string)
| SourceProjection_SingleSubset (topicName : string) (tensors : gset string)
| SourceProjection_Many (topicNames : gset string)
| SourceProjection_ManySubsets (topicNames : gset string)
                               (tensorMap : gmap string (gset string)).

(** [groupBy(keySelector, valueTransform)] builds a [LinkedHashMap]: the keys
    in the order of their first occurrence, each with the list of its values
    in the order of the input. *)
Fixpoint groupByPut {K V} `{EqDecision K} (k : K) (v : V) (m : list (K * list V))
    : list (K * list V) :=
  match m with
  | [] => [(k, [v])]
  | (k', vs) :: m' =>
      if decide (k' = k) then (k', vs ++ [v]) :: m' else (k', vs) :: groupByPut k v m'
  end.

Definition groupBy {A K V} `{EqDecision K} (keySelector : A -> K) (valueTransform : A -> V)
    (l : list A) : list (K * list V) :=
  foldl (fun m x => groupByPut (keySelector x) (valueTransform x) m) [] l.

(** [filterNotNull().toSet()] *)
Definition notNullSet (l : list (option string)) : gset string := list_to_set (omap id l).

(** [pairs.toMap()]: a later pair replaces an earlier one with the same key. *)
Definition toMap {V} (pairs : list (string * V)) : gmap string V :=
  foldl (fun m p => <[p.1 := p.2]> m) ∅ pairs.

Definition topicsAndTensors (sources : list string) : list TopicTensors :=
  (fun kv => {| topicName := kv.1; tensors := notNullSet kv.2 |})
    <$> groupBy fst snd (parseSource <$> sources).

Definition parseSources (sources : list string) : SourceProjection :=
  match topicsAndTensors sources with
  | [] => SourceProjection_Empty
  | [first] =>
      if decide (tensors first = ∅) then SourceProjection_Single (topicName first)
      else SourceProjection_SingleSubset (topicName first) (tensors first)
  | tts =>
      if forallb (fun it => bool_decide (tensors it = ∅)) tts
      then SourceProjection_Many (list_to_set (topicName <$> tts))
      else SourceProjection_ManySubsets
             (list_to_set (topicName <$> tts))
             (toMap ((fun it => (topicName it, tensors it)) <$> tts))
  end.

(** ** areTensorsFromSameTopic *)

Definition areTensorsFromSameTopic (sources : list string)
    : bool * (gset string * gset string) :=
  let parsed := parseSource <$> sources in
  let topics : gset string := list_to_set (parsed.*1) in
  let tensors := notNullSet (parsed.*2) in
  if decide (tensors = ∅ \/ (1 < size topics)%nat) then (false, (topics, ∅))
  else (true, (topics, tensors)).

(** ** Facts about the string functions *)

(** [c] occurs in [s]. *)
Fixpoint hasChar (c : ascii) (s : string) : Prop :=
  match s with
  | EmptyString => False
  | String x s' => x = c \/ hasChar c s'
  end.

Lemma lastIndexOf_None c s : lastIndexOf c s = None <-> ~ hasChar c s.
Proof.
  induction s as [|x s IH]; simpl; [tauto|].
  destruct (lastIndexOf c s) as [i|].
  - split; [done|]. intros Hno.
    assert (Hn : ~ hasChar c s) by tauto. by apply IH in Hn.
  - case_decide; split; try done.
    + tauto.
    + intros _ [?|?]; [done|]. by apply IH.
Qed.

Lemma substring_0_length s : String.substring 0 (String.length s) s = s.
Proof. induction s as [|x s IH]; simpl; by rewrite ?IH. Qed.

Lemma substring_0_0 s : String.substring 0 0 s = "".
Proof. by destruct s. Qed.

Lemma str_app_nil s : "" +:+ s = s.
Proof. done. Qed.

Lemma str_app_cons x s1 s2 : String x s1 +:+ s2 = String x (s1 +:+ s2).
Proof. done. Qed.

Lemma str_length_app s1 s2 :
  String.length (s1 +:+ s2) = (String.length s1 + String.length s2)%nat.
Proof.
  induction s1 as [|x s1 IH]; [done|]. rewrite str_app_cons. simpl. by rewrite IH.
Qed.

Lemma str_app_assoc s1 s2 s3 : (s1 +:+ s2) +:+ s3 = s1 +:+ s2 +:+ s3.
Proof.
  induction s1 as [|x s1 IH]; [done|]. by rewrite !str_app_cons, IH.
Qed.

Lemma hasChar_app c s1 s2 : hasChar c (s1 +:+ s2) <-> hasChar c s1 \/ hasChar c s2.
Proof.
  induction s1 as [|x s1 IH]; [rewrite str_app_nil; simpl; tauto|].
  rewrite str_app_cons. simpl. rewrite IH. tauto.
Qed.

(** The last occurrence cuts the string in two. *)
Lemma lastIndexOf_Some c s i :
  lastIndexOf c s = Some i ->
  exists b a,
    s = b +:+ String c a /\ String.length b = i /\ ~ hasChar c a
    /\ String.substring 0 i s = b
    /\ String.substring (i + 1) (String.length s - (i + 1)) s = a.
Proof.
  revert i. induction s as [|x s IH]; intros i; simpl; [done|].
  destruct (lastIndexOf c s) as [j|] eqn:Hj.
  - intros [= <-]. destruct (IH j eq_refl) as (b & a & Heq & Hlen & Hno & Hb & Ha).
    exists (String x b), a. rewrite str_app_cons, <- Heq. simpl. rewrite Hb.
    repeat split; try done.
    by rewrite Hlen.
  - case_decide as Hx; [|done]. intros [= <-]. subst x.
    exists "", s. rewrite str_app_nil. simpl. repeat split; try done.
    + by apply lastIndexOf_None.
    + by rewrite Nat.sub_0_r, substring_0_length.
Qed.

Lemma lastIndexOf_app c b a :
  ~ hasChar c a -> lastIndexOf c (b +:+ String c a) = Some (String.length b).
Proof.
  intros Hno. induction b as [|x b IH].
  - rewrite str_app_nil. simpl. apply lastIndexOf_None in Hno. rewrite Hno.
    by rewrite decide_True.
  - rewrite str_app_cons. simpl. by rewrite IH.
Qed.

Lemma str_app_cut_inj c b a b' a' :
  ~ hasChar c a -> ~ hasChar c a' ->
  b +:+ String c a = b' +:+ String c a' -> b = b' /\ a = a'.
Proof.
  intros Ha Ha'. revert b'. induction b as [|x b IH]; intros [|y b'];
    rewrite ?str_app_nil, ?str_app_cons; intros Heq; simplify_eq.
  - done.
  - exfalso. apply Ha. apply hasChar_app. right. simpl. by left.
  - exfalso. apply Ha'. apply hasChar_app. right. simpl. by left.
  - destruct (IH b') as [-> ->]; done.
Qed.

Lemma substringAfterLast_app c m b a :
  ~ hasChar c a -> substringAfterLast c m (b +:+ String c a) = a.
Proof.
  intros Hno. unfold substringAfterLast.
  rewrite (lastIndexOf_app c b a Hno).
  destruct (lastIndexOf_Some _ _ _ (lastIndexOf_app c b a Hno))
    as (b' & a' & Heq & _ & Hno' & _ & ->).
  by destruct (str_app_cut_inj _ _ _ _ _ Hno Hno' Heq).
Qed.

Lemma substringBeforeLast_app c b a :
  ~ hasChar c a -> substringBeforeLast c (b +:+ String c a) = b.
Proof.
  intros Hno. unfold substringBeforeLast.
  rewrite (lastIndexOf_app c b a Hno).
  destruct (lastIndexOf_Some _ _ _ (lastIndexOf_app c b a Hno))
    as (b' & a' & Heq & _ & Hno' & -> & _).
  by destruct (str_app_cut_inj _ _ _ _ _ Hno Hno' Heq).
Qed.

Lemma substringAfterLast_missing c m s : ~ hasChar c s -> substringAfterLast c m s = m.
Proof. intros Hno%lastIndexOf_None. unfold substringAfterLast. by rewrite Hno. Qed.

(** Every string is without [c], or is cut in two by its last [c]. *)
Lemma cut_at_last c s :
  ~ hasChar c s \/ exists b a, s = b +:+ String c a /\ ~ hasChar c a.
Proof.
  destruct (lastIndexOf c s) as [i|] eqn:Hi.
  - right. destruct (lastIndexOf_Some _ _ _ Hi) as (b & a & ? & _ & ? & _). eauto.
  - left. by apply lastIndexOf_None.
Qed.

(** ** parseSource, read both ways *)

Lemma parseSource_without c_free :
  ~ hasChar "." c_free -> parseSource c_free = ("", None).
Proof.
  intros Hno. unfold parseSource. rewrite substringAfterLast_missing by done.
  by rewrite decide_True.
Qed.

Lemma parseSource_cut b a :
  ~ hasChar "." a ->
  parseSource (b +:+ String "." a) =
    if decide (a = "") then ("", None)
    else if decide (a = "inputs" \/ a = "outputs") then (b +:+ String "." a, None)
    else (b, Some a).
Proof.
  intros Hno. unfold parseSource.
  rewrite substringAfterLast_app, substringBeforeLast_app by done.
  case_decide; [by subst|]. done.
Qed.

(** X11: a source names a tensor exactly when it is a topic, a dot and a
    tensor name.  [parseSource s] is the topic [t] with the tensor [x] if
    and only if [s] is [t.x] where [x] is not empty, has no dot and is
    neither "inputs" nor "outputs": parsing splits at the last dot and the
    parts put together again give the source. *)
Theorem parseSource_tensor_iff s t x :
  parseSource s = (t, Some x) <->
  s = t +:+ "." +:+ x /\ ~ hasChar "." x /\ x <> "" /\ x <> "inputs" /\ x <> "outputs".
Proof.
  split.
  - intros Hp. destruct (cut_at_last "." s) as [Hno | (b & a & -> & Hno)].
    + by rewrite parseSource_without in Hp.
    + rewrite parseSource_cut in Hp by done.
      repeat case_decide; simplify_eq. repeat split; try done; tauto.
  - intros (-> & Hno & Hx & Hi & Ho).
    change (t +:+ "." +:+ x) with (t +:+ String "." x).
    rewrite parseSource_cut by done.
    rewrite decide_False by done. rewrite decide_False by tauto. done.
Qed.

(** X12: the sources that name no tensor.  [parseSource s] is a topic with
    no tensor in two cases only: [s] ends in ".inputs" or ".outputs", and the
    topic is all of [s]; or [s] has no dot or ends with a dot, and the topic
    is the empty string, whatever [s] was. *)
Theorem parseSource_no_tensor_iff s t :
  parseSource s = (t, None) <->
  (t = s /\ exists p, s = p +:+ ".inputs" \/ s = p +:+ ".outputs")
  \/ (t = "" /\ (~ hasChar "." s \/ exists p, s = p +:+ ".")).
Proof.
  split.
  - intros Hp. destruct (cut_at_last "." s) as [Hno | (b & a & -> & Hno)].
    + rewrite parseSource_without in Hp by done. simplify_eq. right. by split; [|left].
    + rewrite parseSource_cut in Hp by done.
      destruct (decide (a = "")) as [-> | Ha].
      * simplify_eq. right. split; [done|]. right. by exists b.
      * destruct (decide (a = "inputs" \/ a = "outputs")) as [Hio | Hio]; simplify_eq.
        left. split; [done|]. exists b. destruct Hio as [-> | ->]; [by left | by right].
  - intros [[-> (p & [-> | ->])] | [-> [Hno | (p & ->)]]].
    + change (p +:+ ".inputs") with (p +:+ String "." "inputs").
      rewrite parseSource_cut by (simpl; intros H; decompose [or] H; done). done.
    + change (p +:+ ".outputs") with (p +:+ String "." "outputs").
      rewrite parseSource_cut by (simpl; intros H; decompose [or] H; done). done.
    + by apply parseSource_without.
    + change (p +:+ ".") with (p +:+ String "." "").
      rewrite parseSource_cut by (simpl; tauto). done.
Qed.

(** ** Facts about groupBy *)

Section GroupBy.

Context {A K V : Type} `{Countable K}.
Variables (keySelector : A -> K) (valueTransform : A -> V).

(** The values of the elements filed under key [k]. *)
Definition valuesOf (k : K) (l : list A) : list V :=
  valueTransform <$> filter (fun x => keySelector x = k) l.

Lemma groupByPut_map k v (m : list (K * list V)) :
  (list_to_map (groupByPut k v m) : gmap K (list V)) =
  <[k := default [] ((list_to_map m : gmap K (list V)) !! k) ++ [v]]> (list_to_map m).
Proof.
  induction m as [|[k' vs] m IH]; simpl.
  - by rewrite lookup_empty.
  - case_decide as Hk; simpl.
    + rewrite Hk. by rewrite lookup_insert_eq, insert_insert_eq.
    + rewrite IH, lookup_insert_ne by done. by apply insert_insert_ne.
Qed.

Lemma groupByPut_keys k v (m : list (K * list V)) :
  (groupByPut k v m).*1 = if decide (k ∈ m.*1) then m.*1 else m.*1 ++ [k].
Proof.
  induction m as [|[k' vs] m IH]; [done|].
  change (groupByPut k v ((k', vs) :: m))
    with (if decide (k' = k) then (k', vs ++ [v]) :: m else (k', vs) :: groupByPut k v m).
  destruct (decide (k' = k)) as [Hk|Hk]; rewrite !fmap_cons; cbn [fst].
  - rewrite Hk. rewrite decide_True by apply list_elem_of_here. done.
  - rewrite IH. destruct (decide (k ∈ m.*1)) as [Hin|Hin].
    + rewrite decide_True by by apply list_elem_of_further. done.
    + rewrite decide_False; [done|]. by intros [?|?]%elem_of_cons.
Qed.

Lemma groupByPut_NoDup k v (m : list (K * list V)) :
  NoDup m.*1 -> NoDup (groupByPut k v m).*1.
Proof.
  intros Hm. rewrite groupByPut_keys. case_decide as Hk; [done|].
  apply list.NoDup_app. split; [done|]. split; [|apply NoDup_singleton].
  intros x Hx ->%list_elem_of_singleton. done.
Qed.

Lemma groupBy_fold_lookup (m : list (K * list V)) l k :
  (list_to_map (foldl (fun m x => groupByPut (keySelector x) (valueTransform x) m) m l)
     : gmap K (list V)) !! k =
  match (list_to_map m : gmap K (list V)) !! k, valuesOf k l with
  | Some vs, new => Some (vs ++ new)
  | None, [] => None
  | None, new => Some new
  end.
Proof.
  revert m. induction l as [|x l IH]; intros m; simpl.
  { unfold valuesOf. simpl. destruct (_ !! k); by rewrite ?app_nil_r. }
  rewrite IH, groupByPut_map. unfold valuesOf. rewrite filter_cons.
  destruct (decide (keySelector x = k)) as [Hk|Hk].
  - subst k. rewrite lookup_insert_eq. simpl.
    destruct (list_to_map m !! keySelector x) as [vs|]; simpl; [|done].
    by rewrite <- app_assoc.
  - by rewrite lookup_insert_ne.
Qed.

Lemma groupBy_fold_NoDup (m : list (K * list V)) l :
  NoDup m.*1 ->
  NoDup (foldl (fun m x => groupByPut (keySelector x) (valueTransform x) m) m l).*1.
Proof.
  revert m. induction l as [|x l IH]; intros m Hm; simpl; [done|].
  by apply IH, groupByPut_NoDup.
Qed.

(** The keys of a grouping are distinct. *)
Lemma groupBy_NoDup l : NoDup (groupBy keySelector valueTransform l).*1.
Proof. apply groupBy_fold_NoDup. constructor. Qed.

(** Under each key stand the values of the elements with that key, in the
    order of the input, and only the keys of the input occur. *)
Lemma groupBy_elem_of l k vs :
  (k, vs) ∈ groupBy keySelector valueTransform l <->
  vs = valuesOf k l /\ vs <> [].
Proof.
  rewrite (elem_of_list_to_map (M:=gmap K)) by apply groupBy_NoDup.
  unfold groupBy. rewrite groupBy_fold_lookup. simpl. rewrite lookup_empty.
  destruct (valuesOf k l) as [|v new]; split.
  - done.
  - by intros [-> ?].
  - intros [= <-]. done.
  - by intros [-> _].
Qed.

Lemma valuesOf_nil_iff l k : valuesOf k l = [] <-> k ∉ keySelector <$> l.
Proof.
  unfold valuesOf. induction l as [|x l IH].
  { split; [intros _ ?%elem_of_nil; done | done]. }
  rewrite filter_cons, fmap_cons, not_elem_of_cons.
  destruct (decide (keySelector x = k)) as [Hk|Hk].
  - rewrite fmap_cons. split; [done|]. by intros [? _].
  - rewrite IH. split; [by split | by intros [_ ?]].
Qed.

Lemma elem_of_valuesOf l k v :
  v ∈ valuesOf k l <-> exists x, x ∈ l /\ keySelector x = k /\ valueTransform x = v.
Proof.
  unfold valuesOf. rewrite list_elem_of_fmap. setoid_rewrite list_elem_of_filter.
  split.
  - intros (x & -> & Hk & Hx). by exists x.
  - intros (x & Hx & Hk & <-). by exists x.
Qed.

(** The keys of a grouping are the keys of the input. *)
Lemma groupBy_keys l k :
  k ∈ (groupBy keySelector valueTransform l).*1 <-> k ∈ keySelector <$> l.
Proof.
  rewrite list_elem_of_fmap. split.
  - intros ([k' vs] & -> & Hin). apply groupBy_elem_of in Hin as [-> Hne].
    destruct (decide (k' ∈ keySelector <$> l)) as [|Hno]; [done|].
    by apply valuesOf_nil_iff in Hno.
  - intros Hin. exists (k, valuesOf k l). split; [done|].
    apply groupBy_elem_of. split; [done|]. intros Hnil%valuesOf_nil_iff. done.
Qed.

Lemma groupBy_nil_iff l : groupBy keySelector valueTransform l = [] <-> l = [].
Proof.
  split; [|by intros ->]. intros Hg. destruct l as [|x l]; [done|].
  assert (keySelector x ∈ (groupBy keySelector valueTransform (x :: l)).*1) as Hin.
  { apply groupBy_keys. rewrite fmap_cons. apply list_elem_of_here. }
  rewrite Hg in Hin. by apply elem_of_nil in Hin.
Qed.

End GroupBy.

(** ** What the sources say, as sets *)

(** The topics the sources name, the tensors they name, and the tensors they
    name on one topic. *)
Definition parsedTopics (sources : list string) : gset string :=
  list_to_set ((parseSource <$> sources).*1).

Definition parsedTensors (sources : list string) : gset string :=
  notNullSet ((parseSource <$> sources).*2).

Definition tensorsOfTopic (sources : list string) (t : string) : gset string :=
  notNullSet (valuesOf fst snd t (parseSource <$> sources)).

Lemma elem_of_notNullSet x (l : list (option string)) : x ∈ notNullSet l <-> Some x ∈ l.
Proof.
  unfold notNullSet. rewrite elem_of_list_to_set, list_elem_of_omap. split.
  - by intros ([y|] & Hin & [= ->]).
  - intros Hin. by exists (Some x).
Qed.

Lemma elem_of_parsedTopics sources t :
  t ∈ parsedTopics sources <-> exists s o, s ∈ sources /\ parseSource s = (t, o).
Proof.
  unfold parsedTopics. rewrite elem_of_list_to_set, list_elem_of_fmap. split.
  - intros ([t' o] & -> & Hin). apply list_elem_of_fmap in Hin as (s & Hs & Hin).
    by exists s, o.
  - intros (s & o & Hin & Hs). exists (t, o). split; [done|].
    apply list_elem_of_fmap. by exists s.
Qed.

Lemma elem_of_parsedTensors sources x :
  x ∈ parsedTensors sources <-> exists s t, s ∈ sources /\ parseSource s = (t, Some x).
Proof.
  unfold parsedTensors. rewrite elem_of_notNullSet, list_elem_of_fmap. split.
  - intros ([t o] & Ho & Hin). simpl in Ho. subst o.
    apply list_elem_of_fmap in Hin as (s & Hs & Hin). by exists s, t.
  - intros (s & t & Hin & Hs). exists (t, Some x). split; [done|].
    apply list_elem_of_fmap. by exists s.
Qed.

Lemma elem_of_tensorsOfTopic sources t x :
  x ∈ tensorsOfTopic sources t <-> exists s, s ∈ sources /\ parseSource s = (t, Some x).
Proof.
  unfold tensorsOfTopic. rewrite elem_of_notNullSet, elem_of_valuesOf. split.
  - intros ([t' o] & Hin & Ht & Ho). simpl in *. subst.
    apply list_elem_of_fmap in Hin as (s & Hs & Hin). by exists s.
  - intros (s & Hin & Hs). exists (t, Some x). split; [|done].
    apply list_elem_of_fmap. by exists s.
Qed.

Lemma parsedTensors_topics sources x :
  x ∈ parsedTensors sources <->
  exists t, t ∈ parsedTopics sources /\ x ∈ tensorsOfTopic sources t.
Proof.
  rewrite elem_of_parsedTensors. setoid_rewrite elem_of_parsedTopics.
  setoid_rewrite elem_of_tensorsOfTopic. split.
  - intros (s & t & Hin & Hs). exists t. split; [by exists s, (Some x) | by exists s].
  - intros (t & _ & s & Hin & Hs). by exists s, t.
Qed.

(** ** The grouped sources *)

Lemma elem_of_topicsAndTensors sources it :
  it ∈ topicsAndTensors sources <->
  topicName it ∈ parsedTopics sources
  /\ tensors it = tensorsOfTopic sources (topicName it).
Proof.
  unfold topicsAndTensors. rewrite list_elem_of_fmap. split.
  - intros ([t vs] & -> & Hin). simpl.
    pose proof Hin as [-> Hne]%groupBy_elem_of. split; [|done].
    unfold parsedTopics. rewrite elem_of_list_to_set.
    apply (groupBy_keys fst snd). apply list_elem_of_fmap. by exists (t, valuesOf fst snd t (parseSource <$> sources)).
  - intros [Ht Hx]. destruct it as [t X]. simpl in *. subst X.
    exists (t, valuesOf fst snd t (parseSource <$> sources)). split; [done|].
    apply groupBy_elem_of. split; [done|].
    intros Hnil%valuesOf_nil_iff. apply Hnil.
    unfold parsedTopics in Ht. by rewrite elem_of_list_to_set in Ht.
Qed.

Lemma topicsAndTensors_names sources :
  topicName <$> topicsAndTensors sources
  = (groupBy fst snd (parseSource <$> sources)).*1.
Proof.
  unfold topicsAndTensors. rewrite <- list_fmap_compose. done.
Qed.

Lemma topicsAndTensors_NoDup sources : NoDup (topicName <$> topicsAndTensors sources).
Proof. rewrite topicsAndTensors_names. apply groupBy_NoDup. Qed.

Lemma topicsAndTensors_topics sources :
  list_to_set (topicName <$> topicsAndTensors sources) = parsedTopics sources.
Proof.
  apply set_eq. intros t. rewrite elem_of_list_to_set, topicsAndTensors_names.
  rewrite (groupBy_keys fst snd). unfold parsedTopics. by rewrite elem_of_list_to_set.
Qed.

Lemma topicsAndTensors_nil_iff sources : topicsAndTensors sources = [] <-> sources = [].
Proof.
  unfold topicsAndTensors. split; [|by intros ->].
  intros Hg%fmap_nil_inv. apply groupBy_nil_iff in Hg. by apply fmap_nil_inv in Hg.
Qed.

Lemma toMap_fold_lookup {V} (pairs : list (string * V)) (m0 : gmap string V) k v :
  NoDup pairs.*1 ->
  foldl (fun m p => <[p.1 := p.2]> m) m0 pairs !! k = Some v <->
  (k, v) ∈ pairs \/ ((k ∉ pairs.*1) /\ m0 !! k = Some v).
Proof.
  revert m0. induction pairs as [|[k' v'] pairs IH]; intros m0 Hnd.
  { simpl. split; [intros ?; right; split; [apply not_elem_of_nil | done]|].
    by intros [?%elem_of_nil | [_ ?]]. }
  rewrite fmap_cons in Hnd. apply list.NoDup_cons in Hnd as [Hk' Hnd]. cbn [fst] in Hk'.
  cbn [foldl fst snd]. rewrite IH by done.
  rewrite elem_of_cons, fmap_cons, not_elem_of_cons. cbn [fst].
  destruct (decide (k = k')) as [-> | Hne].
  - rewrite lookup_insert_eq. split.
    + intros [Hin | [_ [= ->]]]; [|by left; left].
      exfalso. apply Hk'. apply list_elem_of_fmap. by exists (k', v).
    + intros [[[= ->] | Hin] | [[? _] _]]; [|  |done].
      * right. done.
      * exfalso. apply Hk'. apply list_elem_of_fmap. by exists (k', v).
  - rewrite lookup_insert_ne by done. split.
    + intros [Hin | [Hno Hm]]; [left; by right | right; done].
    + intros [[[= -> ->] | Hin] | [[_ Hno] Hm]]; [done | by left | by right].
Qed.

Lemma toMap_lookup {V} (pairs : list (string * V)) k v :
  NoDup pairs.*1 -> toMap pairs !! k = Some v <-> (k, v) ∈ pairs.
Proof.
  intros Hnd. unfold toMap. rewrite toMap_fold_lookup by done.
  rewrite lookup_empty. split; [by intros [? | [_ ?]] | by left].
Qed.

(** ** parseSources, in terms of the sets *)

Lemma parseSources_cases sources :
  match parseSources sources with
  | SourceProjection_Empty => sources = []
  | SourceProjection_Single t =>
      parsedTopics sources = {[t]} /\ parsedTensors sources = ∅
  | SourceProjection_SingleSubset t X =>
      parsedTopics sources = {[t]} /\ X = parsedTensors sources /\ X <> ∅
  | SourceProjection_Many T =>
      T = parsedTopics sources /\ (1 < size T)%nat /\ parsedTensors sources = ∅
  | SourceProjection_ManySubsets T M =>
      T = parsedTopics sources /\ (1 < size T)%nat /\ parsedTensors sources <> ∅
      /\ forall t X, M !! t = Some X <-> t ∈ T /\ X = tensorsOfTopic sources t
  end.
Proof.
  unfold parseSources.
  pose proof (topicsAndTensors_nil_iff sources) as Hnil.
  pose proof (topicsAndTensors_NoDup sources) as Hnd.
  pose proof (topicsAndTensors_topics sources) as Htop.
  pose proof (elem_of_topicsAndTensors sources) as Hin.
  destruct (topicsAndTensors sources) as [|first [|second rest]] eqn:Htts.
  - by apply Hnil.
  - assert (Ht : parsedTopics sources = {[topicName first]}).
    { rewrite <- Htop. simpl. by rewrite union_empty_r_L. }
    assert (Hx : tensors first = parsedTensors sources).
    { destruct (proj1 (Hin first)) as [_ ->]; [apply list_elem_of_here|].
      apply set_eq. intros x. rewrite parsedTensors_topics, Ht. split.
      - intros Hx. exists (topicName first). split; [|done]. by apply elem_of_singleton.
      - by intros (t & ->%elem_of_singleton & Hx). }
    case_decide as He.
    + split; [done|]. by rewrite <- Hx.
    + split; [done|]. by split.
  - set (tts := first :: second :: rest) in *.
    assert (Hsize : (1 < size (parsedTopics sources))%nat).
    { rewrite <- Htop, size_list_to_set by done. simpl. lia. }
    assert (Hall : forallb (fun it => bool_decide (tensors it = ∅)) tts = true
                   <-> parsedTensors sources = ∅).
    { rewrite forallb_forall. split.
      - intros Hf. apply set_eq. intros x. split; [|by intros ?%elem_of_empty].
        intros (t & Ht & Hx)%parsedTensors_topics.
        assert (Hit : {| topicName := t; tensors := tensorsOfTopic sources t |} ∈ tts)
          by by apply Hin.
        apply list_elem_of_In, Hf, bool_decide_eq_true in Hit. simpl in Hit.
        by rewrite Hit in Hx.
      - intros He it Hit%list_elem_of_In. apply bool_decide_eq_true.
        apply Hin in Hit as [Ht ->]. apply set_eq. intros x.
        split; [|by intros ?%elem_of_empty]. intros Hx.
        rewrite <- He. apply parsedTensors_topics. eauto. }
    destruct (forallb _ tts) eqn:Hf.
    + split; [done|]. rewrite Htop. split; [done|]. by apply Hall.
    + rewrite Htop. split; [done|]. split; [done|]. split.
      { intros He. apply Hall in He. congruence. }
      intros t X. rewrite toMap_lookup.
      * rewrite list_elem_of_fmap. split.
        -- intros (it & [= -> ->] & Hit). by apply Hin.
        -- intros [Ht ->]. exists {| topicName := t; tensors := tensorsOfTopic sources t |}.
           split; [done|]. by apply Hin.
      * by rewrite <- list_fmap_compose.
Qed.

(** A projection as a description of three sets: the topics, the tensors,
    and the tensors of each topic. *)
Definition describes (P : SourceProjection) (T A : gset string) (F : string -> gset string)
    : Prop :=
  match P with
  | SourceProjection_Empty => T = ∅
  | SourceProjection_Single t => T = {[t]} /\ A = ∅
  | SourceProjection_SingleSubset t X => T = {[t]} /\ X = A /\ X <> ∅
  | SourceProjection_Many T' => T' = T /\ (1 < size T)%nat /\ A = ∅
  | SourceProjection_ManySubsets T' M =>
      T' = T /\ (1 < size T)%nat /\ A <> ∅
      /\ forall t X, M !! t = Some X <-> t ∈ T /\ X = F t
  end.

Lemma parseSources_describes sources :
  describes (parseSources sources) (parsedTopics sources) (parsedTensors sources)
            (tensorsOfTopic sources).
Proof.
  pose proof (parseSources_cases sources) as Hs. unfold describes.
  destruct (parseSources sources) as [|t|t X|T|T M]; try done.
  - by subst.
  - destruct Hs as (-> & ? & ?). done.
  - destruct Hs as (-> & ? & ? & ?). done.
Qed.

Lemma describes_unique P P' T A F : describes P T A F -> describes P' T A F -> P = P'.
Proof.
  assert (Hs : forall t : string, size ({[t]} : gset string) = 1%nat)
    by (intros; apply size_singleton).
  assert (He : size (∅ : gset string) = 0%nat) by apply size_empty.
  destruct P as [|t|t X|T1 |T1 M], P' as [|t'|t' X'|T2|T2 M']; simpl;
    intros H1 H2; destruct_and?; subst;
    try done;
    try (match goal with
         | H : {[_]} = ∅ |- _ => exfalso; apply (f_equal size) in H; rewrite Hs, He in H; lia
         | H : ∅ = {[_]} |- _ => exfalso; apply (f_equal size) in H; rewrite Hs, He in H; lia
         | H : (1 < size ∅)%nat |- _ => rewrite He in H; lia
         | H : (1 < size {[_]})%nat |- _ => rewrite Hs in H; lia
         end).
  - f_equal. match goal with H : {[_]} = {[_]} |- _ => by apply singleton_inj in H end.
  - match goal with H : {[_]} = {[_]} |- _ => apply singleton_inj in H as -> end. done.
  - f_equal. apply map_eq. intros t. apply option_eq. intros X.
    match goal with
    | Ha : forall t X, M !! t = Some X <-> _, Hb : forall t X, M' !! t = Some X <-> _ |- _ =>
        rewrite Ha, Hb
    end. done.
Qed.

(** X13: what each projection says about the sources.  [parseSources] is
    the one projection that describes the topics and the tensors of the
    sources: [Empty] for no topic; with one topic [Single] when no source
    names a tensor and [SingleSubset] with all the tensors named otherwise;
    with two topics or more [Many] when no source names a tensor and
    [ManySubsets] otherwise, the map holding for each topic the tensors
    named on it. *)
Theorem parseSources_spec sources P :
  parseSources sources = P <->
  describes P (parsedTopics sources) (parsedTensors sources) (tensorsOfTopic sources).
Proof.
  split.
  - intros <-. apply parseSources_describes.
  - intros HP. eapply describes_unique; [apply parseSources_describes | exact HP].
Qed.

(** X14: no sources, no projection.  [parseSources] is [Empty] exactly for
    the empty list of sources. *)
Theorem parseSources_Empty_iff sources :
  parseSources sources = SourceProjection_Empty <-> sources = [].
Proof.
  split; [|by intros ->].
  intros He. pose proof (parseSources_cases sources) as Hs. by rewrite He in Hs.
Qed.

(** X15: the projection depends on the set of sources only.  Two lists of
    sources with the same elements, in whatever order and however often
    repeated, have the same projection. *)
Theorem parseSources_same_elements sources sources' :
  (forall s, s ∈ sources <-> s ∈ sources') ->
  parseSources sources = parseSources sources'.
Proof.
  intros Hsame.
  assert (HT : parsedTopics sources = parsedTopics sources').
  { apply set_eq. intros t. rewrite !elem_of_parsedTopics.
    by setoid_rewrite Hsame. }
  assert (HA : parsedTensors sources = parsedTensors sources').
  { apply set_eq. intros t. rewrite !elem_of_parsedTensors.
    by setoid_rewrite Hsame. }
  assert (HF : forall t, tensorsOfTopic sources t = tensorsOfTopic sources' t).
  { intros t. apply set_eq. intros x. rewrite !elem_of_tensorsOfTopic.
    by setoid_rewrite Hsame. }
  pose proof (parseSources_describes sources) as H1.
  pose proof (parseSources_describes sources') as H2.
  rewrite <- HT, <- HA in H2.
  apply (describes_unique _ _ _ _ _ H1).
  unfold describes in *. destruct (parseSources sources'); try done.
  destruct H2 as (? & ? & ? & HM). split; [done|]. split; [done|]. split; [done|].
  intros t X. rewrite HM, HF. done.
Qed.

(** X16: [areTensorsFromSameTopic] agrees with [parseSources].  It answers
    true exactly when the projection is [SingleSubset], and then returns the
    one topic and its tensors; otherwise it answers false with the topics
    and no tensors. *)
Theorem areTensorsFromSameTopic_parseSources sources :
  areTensorsFromSameTopic sources =
    match parseSources sources with
    | SourceProjection_SingleSubset t X => (true, ({[t]}, X))
    | _ => (false, (parsedTopics sources, ∅))
    end.
Proof.
  pose proof (parseSources_cases sources) as Hs.
  unfold areTensorsFromSameTopic.
  fold (parsedTopics sources). fold (parsedTensors sources).
  destruct (parseSources sources) as [|t|t X|T|T M].
  - subst. done.
  - destruct Hs as [Ht Hx]. rewrite decide_True by by left. done.
  - destruct Hs as (Ht & -> & Hx). rewrite decide_False; [by rewrite Ht|].
    intros [? | Hsz]; [done|]. rewrite Ht, size_singleton in Hsz. lia.
  - destruct Hs as (-> & Hsz & Hx). rewrite decide_True by by left. done.
  - destruct Hs as (-> & Hsz & Hx & _). rewrite decide_True by by right. done.
Qed.

(** ** transformerFor *)

Section Transformers.

(** [KafkaProperties] with its extension [withAppId], and the MD5 digest
    behind [md5], come from outside these functions. *)
Context {KafkaProperties : Type}.
Variable withAppId : KafkaProperties -> string -> KafkaProperties.
Variable md5 : string -> string.

(** The classes [Chainer] and [Joiner] are declared elsewhere: a transformer
    is the record of the arguments it is constructed with. *)
Inductive Transformer :=
| Chainer (properties : KafkaProperties) (inputTopic : string) (outputTopic : string)
          (tensors : option (gset string)) (pipelineName : string)
          (tensorRenaming : gmap string string)
| Joiner (properties : KafkaProperties) (inputTopics : gset string) (outputTopic : string)
         (tensorsByTopic : option (gmap string (gset string))) (pipelineName : string)
         (tensorRenaming : gmap string string).

Definition nameFor (sources : list string) (sink : string) (type : string) : string :=
  md5 (type +:+ ":" +:+ joinToString ":" sources +:+ ":" +:+ sink).

Definition transformerFor (pipelineName : string) (sources : list string)
    (tensorMap : gmap string string) (sink : string) (baseKafkaProperties : KafkaProperties)
    : option Transformer :=
  match parseSources sources with
  | SourceProjection_Empty => None
  | SourceProjection_Single topicName =>
      Some (Chainer (withAppId baseKafkaProperties (nameFor sources sink "chainer"))
                    topicName sink None pipelineName tensorMap)
  | SourceProjection_SingleSubset topicName tensors =>
      Some (Chainer (withAppId baseKafkaProperties (nameFor sources sink "chainer"))
                    topicName sink (Some tensors) pipelineName tensorMap)
  | SourceProjection_Many topicNames =>
      Some (Joiner (withAppId baseKafkaProperties (nameFor sources sink "joiner"))
                   topicNames sink None pipelineName tensorMap)
  | SourceProjection_ManySubsets topicNames tensorMap' =>
      Some (Joiner (withAppId baseKafkaProperties (nameFor sources sink "joiner"))
                   topicNames sink (Some tensorMap') pipelineName tensorMap)
  end.

(** The topics a transformer reads. *)
Definition inputTopicsOf (tr : Transformer) : gset string :=
  match tr with
  | Chainer _ inputTopic _ _ _ _ => {[inputTopic]}
  | Joiner _ inputTopics _ _ _ _ => inputTopics
  end.

Lemma transformerFor_None_iff pipelineName sources tensorMap sink base :
  transformerFor pipelineName sources tensorMap sink base = None <-> sources = [].
Proof.
  split; [|by intros ->].
  pose proof (parseSources_cases sources) as Hs. unfold transformerFor.
  by destruct (parseSources sources).
Qed.

Lemma transformerFor_inputTopics pipelineName sources tensorMap sink base tr :
  transformerFor pipelineName sources tensorMap sink base = Some tr ->
  inputTopicsOf tr = parsedTopics sources.
Proof.
  pose proof (parseSources_cases sources) as Hs. unfold transformerFor.
  destruct (parseSources sources) as [|t|t X|T|T M]; intros [= <-]; simpl.
  - by destruct Hs as [-> _].
  - by destruct Hs as [-> _].
  - by destruct Hs as [-> _].
  - by destruct Hs as [-> _].
Qed.

(** X17: which transformer a step gets.  There is none exactly when the step
    has no sources.  Sources on one topic give a chainer reading that topic,
    restricted to the tensors named if any is named; sources on two topics or
    more give a joiner reading all of them, with the tensors of each topic if
    any is named.  Both write to the sink as given and carry the application
    id of their kind. *)
Theorem transformerFor_spec pipelineName sources tensorMap sink base :
  match transformerFor pipelineName sources tensorMap sink base with
  | None => sources = []
  | Some (Chainer props inputTopic outputTopic tensors name renaming) =>
      sources <> []
      /\ parsedTopics sources = {[inputTopic]}
      /\ tensors = (if decide (parsedTensors sources = ∅) then None
                    else Some (parsedTensors sources))
      /\ props = withAppId base (nameFor sources sink "chainer")
      /\ outputTopic = sink /\ name = pipelineName /\ renaming = tensorMap
  | Some (Joiner props inputTopics outputTopic byTopic name renaming) =>
      sources <> []
      /\ inputTopics = parsedTopics sources /\ (1 < size inputTopics)%nat
      /\ match byTopic with
         | None => parsedTensors sources = ∅
         | Some M =>
             parsedTensors sources <> ∅
             /\ forall t X, M !! t = Some X <->
                            t ∈ inputTopics /\ X = tensorsOfTopic sources t
         end
      /\ props = withAppId base (nameFor sources sink "joiner")
      /\ outputTopic = sink /\ name = pipelineName /\ renaming = tensorMap
  end.
Proof.
  pose proof (parseSources_cases sources) as Hs.
  unfold transformerFor.
  destruct (parseSources sources) as [|t|t X|T|T M] eqn:Hp; [done|..];
    (split; [by intros -> |]).
  - destruct Hs as [Ht Hx]. rewrite decide_True by done. done.
  - destruct Hs as (Ht & -> & Hx). rewrite decide_False by done. done.
  - destruct Hs as (-> & Hsz & Hx). done.
  - destruct Hs as (-> & Hsz & Hx & HM). done.
Qed.

End Transformers.

(** * The pipeline subscriber

    [PipelineSubscriber] of [io.seldon.dataflow]: the handlers of the pipeline
    updates, which call [transformerFor] and [parseSource].  The Kafka admin
    client, the gRPC client of the scheduler, the start of a transformer and
    the parallel stop of transformers are reached through an environment, as
    the collaborators of the agent server are; a call that throws makes the
    handler throw.  The retry loop of [subscribe] and [cancelPipelines] are
    not part of the embedding. *)

Definition exception := string.

Record PipelineMetadata := { md_id : string; md_name : string; md_version : Z }.

Record PipelineStepUpdate :=
  { sourcesList : list string; sink : string; tensorMapMap : gmap string string }.

(** The operation of an update: the two the subscriber handles, and any
    other value of the enum. *)
Inductive PipelineOperation := Create | Delete | OtherOperation (code : Z).

Record PipelineUpdateMessage :=
  { um_op : PipelineOperation; um_pipeline : string; um_version : Z; um_uid : string }.

Record PipelineUpdateStatusMessage :=
  { success : bool; reason : string; update : PipelineUpdateMessage }.

(** What became of one topic of a [createTopics] request. *)
Inductive TopicOutcome := TopicCreated | TopicExists | TopicFailed (e : exception).

Section Subscriber.

Context {KafkaProperties : Type}.
Variable withAppId : KafkaProperties -> string -> KafkaProperties.
Variable md5 : string -> string.

Abbreviation Transformer := (@Transformer KafkaProperties).

Record PipelineTopology :=
  { tp_metadata : PipelineMetadata; tp_transformers : list Transformer }.

Class Cluster (Env : Type) :=
  { admin_create : KafkaProperties -> Env -> Env * option exception;
    admin_createTopics :
      gset string -> Z -> Z -> Env -> Env * (exception + list (string * TopicOutcome));
    client_pipelineUpdateEvent : PipelineUpdateStatusMessage -> Env -> Env * option exception;
    transformer_start : Transformer -> Env -> Env * option exception;
    parallel_stop : list (PipelineMetadata * Transformer) -> Env -> Env * option exception }.

Context {Env : Type} `{!Cluster Env}.

Inductive SCall :=
| SAdminCreate (props : KafkaProperties) (res : option exception)
| SCreateTopics (names : gset string) (numPartitions replicationFactor : Z)
                (res : exception + list (string * TopicOutcome))
| SUpdateEvent (msg : PipelineUpdateStatusMessage) (res : option exception)
| SStart (tr : Transformer) (res : option exception)
| SStopAll (trs : list (PipelineMetadata * Transformer)) (res : option exception).

Inductive SLog :=
| TopicsFound (names : gset string)
| TopicAlreadyExists (topic : string)
| PipelineExists (id : string)
| DeletePipeline (name : string)
| UnrecognisedOperation (op : PipelineOperation)
| ReceivedRequest (pipeline : string) (version : Z) (uid : string).

Record Subscriber :=
  { kafkaProperties : KafkaProperties;
    pipelines : gmap string PipelineTopology;
    cluster : Env }.

Record SRes (A : Type) :=
  mkSRes { outcome : exception + A; after : Subscriber;
           scalls : list SCall; slogs : list SLog }.

Arguments mkSRes {A} _ _ _ _.
Arguments outcome {A} _.
Arguments after {A} _.
Arguments scalls {A} _.
Arguments slogs {A} _.

Definition SM (A : Type) : Type := Subscriber -> SRes A.

Definition sret {A} (a : A) : SM A := fun s => mkSRes (inr a) s [] [].

Definition throw {A} (e : exception) : SM A := fun s => mkSRes (inl e) s [] [].

(** Sequencing: an exception of the first part ends the run. *)
Definition sbind {A B} (m : SM A) (k : A -> SM B) : SM B :=
  fun s =>
    let r1 := m s in
    match outcome r1 with
    | inl e => mkSRes (inl e) (after r1) (scalls r1) (slogs r1)
    | inr a =>
        let r2 := k a (after r1) in
        mkSRes (outcome r2) (after r2) (scalls r1 ++ scalls r2) (slogs r1 ++ slogs r2)
    end.

Notation "x <~ m ;; k" := (sbind m (fun x => k))
  (at level 20, m at level 99, k at level 200, only parsing).
Notation "m ;;~ k" := (sbind m (fun _ => k))
  (at level 100, k at level 200, right associativity, only parsing).

Definition slog (l : SLog) : SM unit := fun s => mkSRes (inr tt) s [] [l].

Definition getPipelines : SM (gmap string PipelineTopology) :=
  fun s => mkSRes (inr (pipelines s)) s [] [].

Definition setPipelines (p : gmap string PipelineTopology) : SM unit :=
  fun s => mkSRes (inr tt)
             {| kafkaProperties := kafkaProperties s; pipelines := p; cluster := cluster s |}
             [] [].

Definition getKafkaProperties : SM KafkaProperties :=
  fun s => mkSRes (inr (kafkaProperties s)) s [] [].

(** A call that returns its result. *)
Definition scall {A} (f : Env -> Env * A) (c : A -> SCall) : SM A :=
  fun s =>
    let '(e, a) := f (cluster s) in
    mkSRes (inr a)
      {| kafkaProperties := kafkaProperties s; pipelines := pipelines s; cluster := e |}
      [c a] [].

(** A call that returns nothing and may throw. *)
Definition scallOrThrow (f : Env -> Env * option exception) (c : option exception -> SCall)
    : SM unit :=
  r <~ scall f c ;;
  match r with
  | Some e => throw e
  | None => sret tt
  end.

Fixpoint sforEach {A} (l : list A) (body : A -> SM unit) : SM unit :=
  match l with
  | [] => sret tt
  | x :: l' => body x ;;~ sforEach l' body
  end.

(** ** createTopics *)

Definition uniqueTopicNames (steps : list PipelineStepUpdate) : gset string :=
  let topicNames := (steps ≫= sourcesList) ++ (sink <$> steps) in
  list_to_set ((fun topicName => (parseSource topicName).1) <$> topicNames).

Definition createTopics (steps : list PipelineStepUpdate) : SM unit :=
  props <~ getKafkaProperties ;;
  scallOrThrow (admin_create props) (SAdminCreate props) ;;~
  slog (TopicsFound (uniqueTopicNames steps)) ;;~
  result <~ scall (admin_createTopics (uniqueTopicNames steps) 1 1)
                  (SCreateTopics (uniqueTopicNames steps) 1 1) ;;
  match result with
  | inl e => throw e
  | inr values =>
      sforEach values
        (fun result =>
           match result.2 with
           | TopicCreated => sret tt
           | TopicExists => slog (TopicAlreadyExists result.1)
           | TopicFailed e => throw e
           end)
  end.

(** ** handleCreate, handleDelete and the dispatch of an update *)

Definition makePipelineUpdateEvent (metadata : PipelineMetadata)
    (operation : PipelineOperation) (success : bool) (reason : string)
    : PipelineUpdateStatusMessage :=
  {| success := success;
     reason := reason;
     update := {| um_op := operation; um_pipeline := md_name metadata;
                  um_version := md_version metadata; um_uid := md_id metadata |} |}.

Definition pipelineUpdateEvent (msg : PipelineUpdateStatusMessage) : SM unit :=
  scallOrThrow (client_pipelineUpdateEvent msg) (SUpdateEvent msg).

Definition start (tr : Transformer) : SM unit :=
  scallOrThrow (transformer_start tr) (SStart tr).

Definition stepTransformers (metadata : PipelineMetadata) (steps : list PipelineStepUpdate)
    (props : KafkaProperties) : list Transformer :=
  omap (fun it => transformerFor withAppId md5 (md_name metadata) (sourcesList it)
                    (tensorMapMap it) (sink it) props) steps.

(** [handleCreate] once the topics are there: the check of the steps, the
    registration and the start. *)
Definition registerAndStart (metadata : PipelineMetadata) (steps : list PipelineStepUpdate)
    (transformers : list Transformer) : SM unit :=
  if decide (length transformers <> length steps) then
    pipelineUpdateEvent
      (makePipelineUpdateEvent metadata Create false "failed to create all pipeline steps")
  else
    ps <~ getPipelines ;;
    match ps !! md_id metadata with
    | None =>
        setPipelines (<[md_id metadata :=
                          {| tp_metadata := metadata; tp_transformers := transformers |}]> ps) ;;~
        sforEach transformers start ;;~
        pipelineUpdateEvent (makePipelineUpdateEvent metadata Create true "Created pipeline")
    | Some previous => slog (PipelineExists (md_id metadata))
    end.

Definition handleCreate (metadata : PipelineMetadata) (steps : list PipelineStepUpdate)
    : SM unit :=
  props <~ getKafkaProperties ;;
  let transformers := stepTransformers metadata steps props in
  createTopics steps ;;~
  registerAndStart metadata steps transformers.

Definition handleDelete (metadata : PipelineMetadata) : SM unit :=
  slog (DeletePipeline (md_name metadata)) ;;~
  ps <~ getPipelines ;;
  setPipelines (delete (md_id metadata) ps) ;;~
  match ps !! md_id metadata with
  | Some pipeline =>
      scallOrThrow
        (parallel_stop ((fun step => (tp_metadata pipeline, step))
                          <$> tp_transformers pipeline))
        (SStopAll ((fun step => (tp_metadata pipeline, step)) <$> tp_transformers pipeline))
  | None => sret tt
  end ;;~
  pipelineUpdateEvent (makePipelineUpdateEvent metadata Delete true "Pipeline removed").

(** The body of [onEach] in [subscribe]. *)
Definition handleUpdate (update : PipelineUpdateMessage) (updatesList : list PipelineStepUpdate)
    : SM unit :=
  slog (ReceivedRequest (um_pipeline update) (um_version update) (um_uid update)) ;;~
  let metadata := {| md_id := um_uid update; md_name := um_pipeline update;
                     md_version := um_version update |} in
  match um_op update with
  | Create => handleCreate metadata updatesList
  | Delete => handleDelete metadata
  | op => slog (UnrecognisedOperation op)
  end.

(** ** Facts about the handlers *)

Implicit Types (sub : Subscriber) (steps : list PipelineStepUpdate).

Lemma sbind_inl {A B} (m : SM A) (k : A -> SM B) sub e :
  outcome (m sub) = inl e ->
  sbind m k sub = mkSRes (inl e) (after (m sub)) (scalls (m sub)) (slogs (m sub)).
Proof. intros Ho. unfold sbind. by rewrite Ho. Qed.

Lemma sbind_inr {A B} (m : SM A) (k : A -> SM B) sub a :
  outcome (m sub) = inr a ->
  sbind m k sub =
    mkSRes (outcome (k a (after (m sub)))) (after (k a (after (m sub))))
           (scalls (m sub) ++ scalls (k a (after (m sub))))
           (slogs (m sub) ++ slogs (k a (after (m sub)))).
Proof. intros Ho. unfold sbind. by rewrite Ho. Qed.

Lemma scall_run {A} (f : Env -> Env * A) (c : A -> SCall) sub :
  scall f c sub =
    mkSRes (inr (f (cluster sub)).2)
      {| kafkaProperties := kafkaProperties sub; pipelines := pipelines sub;
         cluster := (f (cluster sub)).1 |}
      [c (f (cluster sub)).2] [].
Proof. unfold scall. by destruct (f (cluster sub)). Qed.

Lemma scallOrThrow_run (f : Env -> Env * option exception) c sub :
  scallOrThrow f c sub =
    mkSRes (match (f (cluster sub)).2 with Some e => inl e | None => inr tt end)
      {| kafkaProperties := kafkaProperties sub; pipelines := pipelines sub;
         cluster := (f (cluster sub)).1 |}
      [c (f (cluster sub)).2] [].
Proof.
  unfold scallOrThrow, sbind. rewrite scall_run. simpl.
  by destruct ((f (cluster sub)).2).
Qed.

(** A part of a handler that leaves the registered pipelines and the Kafka
    properties alone. *)
Definition keeps_pipelines {A} (m : SM A) : Prop :=
  forall sub, pipelines (after (m sub)) = pipelines sub
              /\ kafkaProperties (after (m sub)) = kafkaProperties sub.

Lemma keeps_sret {A} (a : A) : keeps_pipelines (sret a).
Proof. done. Qed.

Lemma keeps_throw {A} e : keeps_pipelines (throw (A:=A) e).
Proof. done. Qed.

Lemma keeps_slog l : keeps_pipelines (slog l).
Proof. done. Qed.

Lemma keeps_scallOrThrow f c : keeps_pipelines (scallOrThrow f c).
Proof. intros sub. by rewrite scallOrThrow_run. Qed.

Lemma keeps_scall {A} (f : Env -> Env * A) c : keeps_pipelines (scall f c).
Proof. intros sub. by rewrite scall_run. Qed.

Lemma keeps_getKafkaProperties : keeps_pipelines getKafkaProperties.
Proof. done. Qed.

Lemma keeps_sbind {A B} (m : SM A) (k : A -> SM B) :
  keeps_pipelines m -> (forall a, keeps_pipelines (k a)) -> keeps_pipelines (sbind m k).
Proof.
  intros Hm Hk sub. unfold sbind.
  destruct (outcome (m sub)) as [e|a]; simpl; [apply Hm|].
  destruct (Hk a (after (m sub))) as [-> ->]. apply Hm.
Qed.

Lemma keeps_sforEach {A} (l : list A) (body : A -> SM unit) :
  (forall x, keeps_pipelines (body x)) -> keeps_pipelines (sforEach l body).
Proof.
  intros Hb. induction l as [|x l IH]; [apply keeps_sret|].
  apply keeps_sbind; [apply Hb | intros _; apply IH].
Qed.

Lemma keeps_createTopics steps : keeps_pipelines (createTopics steps).
Proof.
  unfold createTopics.
  apply keeps_sbind; [apply keeps_getKafkaProperties | intros props].
  apply keeps_sbind; [apply keeps_scallOrThrow | intros _].
  apply keeps_sbind; [apply keeps_slog | intros _].
  apply keeps_sbind; [apply keeps_scall | intros [e|values]]; [apply keeps_throw|].
  apply keeps_sforEach. intros [k [| |e]]; simpl;
    [apply keeps_sret | apply keeps_slog | apply keeps_throw].
Qed.

Lemma keeps_pipelineUpdateEvent msg : keeps_pipelines (pipelineUpdateEvent msg).
Proof. apply keeps_scallOrThrow. Qed.

Lemma keeps_start tr : keeps_pipelines (start tr).
Proof. apply keeps_scallOrThrow. Qed.

(** The transformers started by a list of calls, and those whose start
    returned. *)
Definition startedBy (c : SCall) : option Transformer :=
  match c with SStart tr _ => Some tr | _ => None end.

Definition eventOf (c : SCall) : option PipelineUpdateStatusMessage :=
  match c with SUpdateEvent msg _ => Some msg | _ => None end.

(** Every call of a part of a handler satisfies [P]. *)
Definition calls_all (P : SCall -> Prop) {A} (m : SM A) : Prop :=
  forall sub, Forall P (scalls (m sub)).

Lemma calls_all_sret P {A} (a : A) : calls_all P (sret a).
Proof. intros sub. constructor. Qed.

Lemma calls_all_throw P {A} e : calls_all P (throw (A:=A) e).
Proof. intros sub. constructor. Qed.

Lemma calls_all_slog P l : calls_all P (slog l).
Proof. intros sub. constructor. Qed.

Lemma calls_all_scall P {A} (f : Env -> Env * A) c :
  (forall a, P (c a)) -> calls_all P (scall f c).
Proof. intros Hc sub. rewrite scall_run. simpl. by repeat constructor. Qed.

Lemma calls_all_scallOrThrow P f c :
  (forall a, P (c a)) -> calls_all P (scallOrThrow f c).
Proof. intros Hc sub. rewrite scallOrThrow_run. simpl. by repeat constructor. Qed.

Lemma calls_all_sbind P {A B} (m : SM A) (k : A -> SM B) :
  calls_all P m -> (forall a, calls_all P (k a)) -> calls_all P (sbind m k).
Proof.
  intros Hm Hk sub. unfold sbind.
  destruct (outcome (m sub)) as [e|a]; simpl; [apply Hm|].
  apply Forall_app. split; [apply Hm | apply Hk].
Qed.

Lemma calls_all_sforEach P {A} (l : list A) (body : A -> SM unit) :
  (forall x, calls_all P (body x)) -> calls_all P (sforEach l body).
Proof.
  intros Hb. induction l as [|x l IH]; [apply calls_all_sret|].
  apply calls_all_sbind; [apply Hb | intros _; apply IH].
Qed.

Lemma createTopics_quiet steps :
  calls_all (fun c => startedBy c = None /\ eventOf c = None) (createTopics steps).
Proof.
  unfold createTopics.
  apply calls_all_sbind; [intros sub; constructor | intros props].
  apply calls_all_sbind; [by apply calls_all_scallOrThrow | intros _].
  apply calls_all_sbind; [apply calls_all_slog | intros _].
  apply calls_all_sbind; [by apply calls_all_scall | intros [e|values]];
    [apply calls_all_throw|].
  apply calls_all_sforEach. intros [k [| |e]]; simpl;
    [apply calls_all_sret | apply calls_all_slog | apply calls_all_throw].
Qed.

Lemma omap_length_le {A B} (f : A -> option B) (l : list A) :
  (length (omap f l) <= length l)%nat.
Proof.
  induction l as [|x l IH]; [done|].
  change (omap f (x :: l))
    with (match f x with Some y => y :: omap f l | None => omap f l end).
  destruct (f x); simpl; lia.
Qed.

(** A transformer is missing exactly when a step has no sources. *)
Lemma stepTransformers_length metadata steps props :
  length (stepTransformers metadata steps props) = length steps
  <-> Forall (fun step => sourcesList step <> []) steps.
Proof.
  unfold stepTransformers.
  induction steps as [|step steps IH]; [by split; [constructor|]|].
  change (omap ?f (step :: steps))
    with (match f step with Some y => y :: omap f steps | None => omap f steps end).
  rewrite list.Forall_cons.
  destruct (transformerFor _ _ _ _ _ _ _) as [tr|] eqn:Htr.
  - simpl. rewrite <- IH. split.
    + intros [= Hl]. split; [|done]. intros Hnil.
      by rewrite Hnil in Htr.
    + intros [_ ->]. done.
  - apply transformerFor_None_iff in Htr. split; [|by intros [? _]].
    intros Hl. exfalso. simpl in Hl.
    match type of Hl with length (omap ?f steps) = _ =>
      pose proof (omap_length_le f steps) end. lia.
Qed.

Definition returnedStart (c : SCall) : option Transformer :=
  match c with SStart tr None => Some tr | _ => None end.

Lemma handleCreate_run metadata steps sub :
  match outcome (createTopics steps sub) with
  | inl e =>
      outcome (handleCreate metadata steps sub) = inl e
      /\ after (handleCreate metadata steps sub) = after (createTopics steps sub)
      /\ scalls (handleCreate metadata steps sub) = scalls (createTopics steps sub)
  | inr _ =>
      let r2 := registerAndStart metadata steps
                  (stepTransformers metadata steps (kafkaProperties sub))
                  (after (createTopics steps sub)) in
      outcome (handleCreate metadata steps sub) = outcome r2
      /\ after (handleCreate metadata steps sub) = after r2
      /\ scalls (handleCreate metadata steps sub)
         = scalls (createTopics steps sub) ++ scalls r2
  end.
Proof.
  unfold handleCreate.
  rewrite (sbind_inr getKafkaProperties _ sub (kafkaProperties sub) eq_refl).
  change (after (getKafkaProperties sub)) with sub.
  change (scalls (getKafkaProperties sub)) with (@nil SCall). cbn [outcome after scalls app].
  destruct (outcome (createTopics steps sub)) as [e|[]] eqn:Hct.
  - by rewrite (sbind_inl _ _ _ _ Hct).
  - by rewrite (sbind_inr _ _ _ _ Hct).
Qed.

Lemma start_run tr sub :
  start tr sub =
    mkSRes (match (transformer_start tr (cluster sub)).2 with
            | Some e => inl e | None => inr tt end)
      {| kafkaProperties := kafkaProperties sub; pipelines := pipelines sub;
         cluster := (transformer_start tr (cluster sub)).1 |}
      [SStart tr (transformer_start tr (cluster sub)).2] [].
Proof. apply scallOrThrow_run. Qed.

(** The start of the transformers: in order, until one throws. *)
Lemma startAll_run (trs : list Transformer) sub :
  let r := sforEach trs start sub in
  omap startedBy (scalls r) `prefix_of` trs
  /\ Forall (fun c => eventOf c = None) (scalls r)
  /\ pipelines (after r) = pipelines sub
  /\ match outcome r with
     | inr _ => scalls r = (fun tr => SStart tr None) <$> trs
     | inl _ => omap returnedStart (scalls r) <> trs
     end.
Proof.
  revert sub. induction trs as [|tr trs IH]; intros sub.
  { simpl. split; [done|]. split; [constructor|]. done. }
  cbn [sforEach]. unfold sbind. rewrite start_run. cbn [outcome after scalls].
  destruct ((transformer_start tr (cluster sub)).2) as [e|] eqn:Hres.
  - cbn [scalls]. split; [|split; [|split]].
    + apply prefix_cons, prefix_nil.
    + by repeat constructor.
    + done.
    + simpl. done.
  - set (sub1 := {| kafkaProperties := _; pipelines := _; cluster := _ |}).
    destruct (IH sub1) as (Hpre & Hev & Hp & Hout).
    change (omap startedBy (scalls (sforEach trs start sub1)) `prefix_of` trs) in Hpre.
    destruct (outcome (sforEach trs start sub1)) as [e|[]];
      cbn [outcome after scalls app]; (split; [|split; [|split]]);
      try (by constructor); try done.
    + change (omap startedBy (SStart tr None :: scalls (sforEach trs start sub1)))
        with (tr :: omap startedBy (scalls (sforEach trs start sub1))).
      by apply prefix_cons.
    + change (omap returnedStart (SStart tr None :: scalls (sforEach trs start sub1)))
        with (tr :: omap returnedStart (scalls (sforEach trs start sub1))).
      intros Heq. apply Hout. by injection Heq.
    + change (omap startedBy (SStart tr None :: scalls (sforEach trs start sub1)))
        with (tr :: omap startedBy (scalls (sforEach trs start sub1))).
      by apply prefix_cons.
    + by rewrite Hout.
Qed.


Definition createdPipeline (metadata : PipelineMetadata) : PipelineUpdateStatusMessage :=
  makePipelineUpdateEvent metadata Create true "Created pipeline".

Lemma createTopics_no_start_no_event steps sub :
  omap startedBy (scalls (createTopics steps sub)) = []
  /\ omap returnedStart (scalls (createTopics steps sub)) = []
  /\ omap eventOf (scalls (createTopics steps sub)) = [].
Proof.
  pose proof (createTopics_quiet steps sub) as Hq.
  repeat split; apply omap_all_None; eapply list.Forall_impl; try exact Hq;
    intros c [Hs He]; try done.
  by destruct c as [| | |? []|].
Qed.

Lemma pipelineUpdateEvent_run msg sub :
  pipelineUpdateEvent msg sub =
    mkSRes (match (client_pipelineUpdateEvent msg (cluster sub)).2 with
            | Some e => inl e | None => inr tt end)
      {| kafkaProperties := kafkaProperties sub; pipelines := pipelines sub;
         cluster := (client_pipelineUpdateEvent msg (cluster sub)).1 |}
      [SUpdateEvent msg (client_pipelineUpdateEvent msg (cluster sub)).2] [].
Proof. apply scallOrThrow_run. Qed.

(** X18: a failure of the topic creation ends [handleCreate].  If
    [createTopics] throws, [handleCreate] throws the same exception: no
    status is reported to the scheduler, nothing is registered and no
    transformer is started, whatever the steps are. *)
Theorem handleCreate_topics_failure metadata steps sub e :
  outcome (createTopics steps sub) = inl e ->
  outcome (handleCreate metadata steps sub) = inl e
  /\ pipelines (after (handleCreate metadata steps sub)) = pipelines sub
  /\ omap startedBy (scalls (handleCreate metadata steps sub)) = []
  /\ omap eventOf (scalls (handleCreate metadata steps sub)) = [].
Proof.
  intros Hct. pose proof (handleCreate_run metadata steps sub) as Hr.
  rewrite Hct in Hr. destruct Hr as (-> & -> & ->).
  destruct (createTopics_no_start_no_event steps sub) as (? & _ & ?).
  destruct (keeps_createTopics steps sub) as [? _]. done.
Qed.


Lemma registerAndStart_existing metadata steps trs sub previous :
  length trs = length steps ->
  pipelines sub !! md_id metadata = Some previous ->
  registerAndStart metadata steps trs sub
  = mkSRes (inr tt) sub [] [PipelineExists (md_id metadata)].
Proof.
  intros Hlen Hprev. unfold registerAndStart. rewrite decide_False by by intros [].
  unfold sbind, getPipelines. cbn [outcome after scalls slogs]. by rewrite Hprev.
Qed.

Lemma registerAndStart_fresh metadata steps trs sub :
  length trs = length steps ->
  pipelines sub !! md_id metadata = None ->
  let sub1 := {| kafkaProperties := kafkaProperties sub;
                 pipelines := <[md_id metadata :=
                                  {| tp_metadata := metadata; tp_transformers := trs |}]>
                                (pipelines sub);
                 cluster := cluster sub |} in
  let r1 := sforEach trs start sub1 in
  match outcome r1 with
  | inl e =>
      outcome (registerAndStart metadata steps trs sub) = inl e
      /\ after (registerAndStart metadata steps trs sub) = after r1
      /\ scalls (registerAndStart metadata steps trs sub) = scalls r1
  | inr _ =>
      outcome (registerAndStart metadata steps trs sub)
        = outcome (pipelineUpdateEvent (createdPipeline metadata) (after r1))
      /\ after (registerAndStart metadata steps trs sub)
         = after (pipelineUpdateEvent (createdPipeline metadata) (after r1))
      /\ scalls (registerAndStart metadata steps trs sub)
         = scalls r1 ++ scalls (pipelineUpdateEvent (createdPipeline metadata) (after r1))
  end.
Proof.
  intros Hlen Hfresh sub1 r1. unfold registerAndStart. rewrite decide_False by by intros [].
  unfold sbind, getPipelines, setPipelines. cbn [outcome after scalls slogs app].
  rewrite Hfresh. cbn [outcome after scalls slogs app]. fold sub1. fold r1.
  destruct (outcome r1); cbn [outcome after scalls slogs app]; done.
Qed.

Lemma omap_started_starts (trs : list Transformer) :
  omap startedBy ((fun tr => SStart tr None) <$> trs) = trs
  /\ omap returnedStart ((fun tr => SStart tr None) <$> trs) = trs
  /\ omap eventOf ((fun tr => SStart tr None) <$> trs) = [].
Proof.
  induction trs as [|tr l (IH1 & IH2 & IH3)]; [done|]. rewrite fmap_cons.
  change (omap startedBy (SStart tr None :: ?l')) with (tr :: omap startedBy l').
  change (omap returnedStart (SStart tr None :: ?l')) with (tr :: omap returnedStart l').
  change (omap eventOf (SStart tr None :: ?l')) with (omap eventOf l').
  by rewrite IH1, IH2, IH3.
Qed.

(** X20: a pipeline that is registered is not created again.  If every step
    has sources and the id of the pipeline is registered already,
    [handleCreate] keeps the registered topology, starts no transformer and
    reports nothing to the scheduler. *)
Theorem handleCreate_existing metadata steps sub :
  Forall (fun step => sourcesList step <> []) steps ->
  is_Some (pipelines sub !! md_id metadata) ->
  pipelines (after (handleCreate metadata steps sub)) = pipelines sub
  /\ omap startedBy (scalls (handleCreate metadata steps sub)) = []
  /\ omap eventOf (scalls (handleCreate metadata steps sub)) = [].
Proof.
  intros Hall [previous Hprev]. pose proof (handleCreate_run metadata steps sub) as Hr.
  destruct (createTopics_no_start_no_event steps sub) as (Hs & _ & He).
  destruct (keeps_createTopics steps sub) as [Hp _].
  destruct (outcome (createTopics steps sub)) as [e|[]].
  - destruct Hr as (_ & -> & ->). done.
  - cbn zeta in Hr. destruct Hr as (_ & -> & ->).
    rewrite (registerAndStart_existing _ _ _ _ previous).
    + cbn [after scalls]. by rewrite app_nil_r.
    + by apply stepTransformers_length.
    + by rewrite Hp.
Qed.

(** X21: a new pipeline is registered before its transformers start.  If
    every step has sources, the id is not registered and the topics were
    created, the topology is registered whether or not the starts succeed;
    the transformers are started in the order of the steps, up to the first
    that throws; and "Created pipeline" is reported exactly when every start
    returned, the handler throwing otherwise. *)
Theorem handleCreate_fresh metadata steps sub :
  Forall (fun step => sourcesList step <> []) steps ->
  pipelines sub !! md_id metadata = None ->
  outcome (createTopics steps sub) = inr tt ->
  pipelines (after (handleCreate metadata steps sub))
    = <[md_id metadata :=
          {| tp_metadata := metadata;
             tp_transformers := stepTransformers metadata steps (kafkaProperties sub) |}]>
        (pipelines sub)
  /\ omap startedBy (scalls (handleCreate metadata steps sub))
       `prefix_of` stepTransformers metadata steps (kafkaProperties sub)
  /\ ((omap returnedStart (scalls (handleCreate metadata steps sub))
         = stepTransformers metadata steps (kafkaProperties sub)
       /\ omap eventOf (scalls (handleCreate metadata steps sub))
          = [createdPipeline metadata])
      \/ (omap returnedStart (scalls (handleCreate metadata steps sub))
            <> stepTransformers metadata steps (kafkaProperties sub)
          /\ omap eventOf (scalls (handleCreate metadata steps sub)) = []
          /\ exists e, outcome (handleCreate metadata steps sub) = inl e)).
Proof.
  intros Hall Hfresh Hct.
  pose proof (handleCreate_run metadata steps sub) as Hr.
  destruct (createTopics_no_start_no_event steps sub) as (Hs & Hrs & He).
  destruct (keeps_createTopics steps sub) as [Hp Hk].
  rewrite Hct in Hr. cbn zeta in Hr. destruct Hr as (-> & -> & ->).
  set (trs := stepTransformers metadata steps (kafkaProperties sub)).
  assert (Hlen : length trs = length steps) by by apply stepTransformers_length.
  pose proof (registerAndStart_fresh metadata steps trs (after (createTopics steps sub))
                Hlen) as Hrs'.
  rewrite Hp in Hrs'. specialize (Hrs' Hfresh). cbn zeta in Hrs'.
  match type of Hrs' with context [sforEach trs start ?st] => set (sub1 := st) in * end.
  destruct (startAll_run trs sub1) as (Hpre & Hev & Hpip & Hout). cbn zeta in *.
  destruct (outcome (sforEach trs start sub1)) as [e|[]].
  - destruct Hrs' as (-> & -> & ->).
    rewrite !omap_app, Hs, Hrs, He, Hpip. cbn [app].
    rewrite (omap_all_None eventOf) by done.
    split; [done|]. split; [done|]. right. eauto.
  - destruct Hrs' as (-> & -> & ->). rewrite pipelineUpdateEvent_run.
    cbn [outcome after scalls pipelines].
    destruct (omap_started_starts trs) as (H1 & H2 & H3).
    rewrite !omap_app, Hs, Hrs, He, Hpip, Hout, H1, H2, H3. cbn [app].
    change (omap startedBy [SUpdateEvent ?m ?x]) with (@nil Transformer).
    change (omap returnedStart [SUpdateEvent ?m ?x]) with (@nil Transformer).
    rewrite !app_nil_r. split; [done|]. split; [done|]. by left.
Qed.

Definition pipelineRemoved (metadata : PipelineMetadata) : PipelineUpdateStatusMessage :=
  makePipelineUpdateEvent metadata Delete true "Pipeline removed".


Definition failureOf (result : string * TopicOutcome) : option exception :=
  match result.2 with TopicFailed e => Some e | _ => None end.

Lemma visitTopics_outcome (values : list (string * TopicOutcome)) sub :
  outcome (sforEach values
             (fun result =>
                match result.2 with
                | TopicCreated => sret tt
                | TopicExists => slog (TopicAlreadyExists result.1)
                | TopicFailed e => throw e
                end) sub)
  = match head (omap failureOf values) with Some e => inl e | None => inr tt end.
Proof.
  revert sub. induction values as [|[k o] values IH]; intros sub; [done|].
  cbn [sforEach]. unfold sbind.
  change (omap failureOf ((k, o) :: values))
    with (match failureOf (k, o) with
          | Some e => e :: omap failureOf values
          | None => omap failureOf values
          end).
  destruct o as [| |e]; cbn [snd outcome sret slog throw failureOf head]; by rewrite ?IH.
Qed.

(** X22: which failures of the topic creation are tolerated.  [createTopics]
    throws when the admin client cannot be created or the request fails, and
    otherwise throws the first failure among the results of the topics that
    is not "topic exists": topics that exist already are no error. *)
Theorem createTopics_outcome steps sub :
  outcome (createTopics steps sub) =
    match (admin_create (kafkaProperties sub) (cluster sub)).2 with
    | Some e => inl e
    | None =>
        match (admin_createTopics (uniqueTopicNames steps) 1 1
                 (admin_create (kafkaProperties sub) (cluster sub)).1).2 with
        | inl e => inl e
        | inr values =>
            match head (omap failureOf values) with
            | Some e => inl e
            | None => inr tt
            end
        end
    end.
Proof.
  unfold createTopics.
  rewrite (sbind_inr getKafkaProperties _ sub (kafkaProperties sub) eq_refl).
  cbn [outcome]. change (after (getKafkaProperties sub)) with sub.
  unfold sbind at 1. rewrite scallOrThrow_run. cbn [outcome after].
  destruct ((admin_create (kafkaProperties sub) (cluster sub)).2) as [e|]; [done|].
  cbn [outcome]. unfold sbind at 1. cbn [outcome slog after].
  unfold sbind at 1. rewrite scall_run. cbn [outcome after cluster].
  destruct ((admin_createTopics _ _ _ _).2) as [e|values]; [done|].
  cbn [outcome]. apply visitTopics_outcome.
Qed.

(** X23: the topics requested cover what the transformers of the steps
    touch.  For every step of the update, the topics its transformer reads
    are among the topics [createTopics] asks for; so is the topic it writes
    to if the sink ends in ".inputs" or ".outputs". *)
Theorem createTopics_covers_step steps step pipelineName props tr :
  step ∈ steps ->
  transformerFor withAppId md5 pipelineName (sourcesList step) (tensorMapMap step)
                 (sink step) props = Some tr ->
  inputTopicsOf tr ⊆ uniqueTopicNames steps
  /\ ((exists p, sink step = p +:+ ".inputs" \/ sink step = p +:+ ".outputs") ->
      sink step ∈ uniqueTopicNames steps).
Proof.
  intros Hin Htr. split.
  - assert (Hsub : parsedTopics (sourcesList step) ⊆ uniqueTopicNames steps).
    { intros t (s & o & Hs & Hp)%elem_of_parsedTopics.
      unfold uniqueTopicNames. rewrite elem_of_list_to_set, list_elem_of_fmap.
      exists s. split; [by rewrite Hp|]. apply elem_of_app. left.
      apply list_elem_of_bind. by exists step. }
    by rewrite (transformerFor_inputTopics _ _ _ _ _ _ _ _ Htr).
  - intros Hio.
    assert (Hp : parseSource (sink step) = (sink step, None)).
    { destruct Hio as (p & [-> | ->]).
      - change (p +:+ ".inputs") with (p +:+ String "." "inputs").
        rewrite parseSource_cut by (simpl; intros H; decompose [or] H; done). done.
      - change (p +:+ ".outputs") with (p +:+ String "." "outputs").
        rewrite parseSource_cut by (simpl; intros H; decompose [or] H; done). done. }
    unfold uniqueTopicNames. rewrite elem_of_list_to_set, list_elem_of_fmap.
    exists (sink step). split; [by rewrite Hp|]. apply elem_of_app. right.
    apply list_elem_of_fmap. by exists step.
Qed.

Lemma handleDelete_run metadata sub :
  let sub1 := {| kafkaProperties := kafkaProperties sub;
                 pipelines := delete (md_id metadata) (pipelines sub);
                 cluster := cluster sub |} in
  match pipelines sub !! md_id metadata with
  | None =>
      outcome (handleDelete metadata sub)
        = outcome (pipelineUpdateEvent (pipelineRemoved metadata) sub1)
      /\ after (handleDelete metadata sub)
         = after (pipelineUpdateEvent (pipelineRemoved metadata) sub1)
      /\ scalls (handleDelete metadata sub)
         = scalls (pipelineUpdateEvent (pipelineRemoved metadata) sub1)
  | Some pipeline =>
      let trs := (fun step => (tp_metadata pipeline, step)) <$> tp_transformers pipeline in
      let stop := parallel_stop trs (cluster sub) in
      let sub2 := {| kafkaProperties := kafkaProperties sub;
                     pipelines := delete (md_id metadata) (pipelines sub);
                     cluster := stop.1 |} in
      match stop.2 with
      | Some e =>
          outcome (handleDelete metadata sub) = inl e
          /\ after (handleDelete metadata sub) = sub2
          /\ scalls (handleDelete metadata sub) = [SStopAll trs (Some e)]
      | None =>
          outcome (handleDelete metadata sub)
            = outcome (pipelineUpdateEvent (pipelineRemoved metadata) sub2)
          /\ after (handleDelete metadata sub)
             = after (pipelineUpdateEvent (pipelineRemoved metadata) sub2)
          /\ scalls (handleDelete metadata sub)
             = SStopAll trs None :: scalls (pipelineUpdateEvent (pipelineRemoved metadata) sub2)
      end
  end.
Proof.
  unfold handleDelete, sbind, getPipelines, setPipelines, slog.
  cbn [outcome after scalls slogs app pipelines kafkaProperties cluster].
  destruct (pipelines sub !! md_id metadata) as [pipeline|]; cbn zeta.
  - rewrite scallOrThrow_run. cbn [outcome after scalls slogs app pipelines kafkaProperties cluster].
    destruct ((parallel_stop _ (cluster sub)).2); cbn [outcome after scalls slogs app]; done.
  - cbn [outcome after scalls slogs app sret]. done.
Qed.

Lemma handleDelete_pipelines metadata sub :
  pipelines (after (handleDelete metadata sub)) = delete (md_id metadata) (pipelines sub).
Proof.
  pose proof (handleDelete_run metadata sub) as Hr. cbn zeta in Hr.
  destruct (pipelines sub !! md_id metadata) as [pipeline|].
  - destruct ((parallel_stop _ (cluster sub)).2) as [e|].
    + by destruct Hr as (_ & -> & _).
    + destruct Hr as (_ & -> & _). by rewrite pipelineUpdateEvent_run.
  - destruct Hr as (_ & -> & _). by rewrite pipelineUpdateEvent_run.
Qed.


Lemma handleCreate_pipelines metadata steps sub :
  pipelines (after (handleCreate metadata steps sub)) = pipelines sub
  \/ pipelines (after (handleCreate metadata steps sub))
     = <[md_id metadata :=
           {| tp_metadata := metadata;
              tp_transformers := stepTransformers metadata steps (kafkaProperties sub) |}]>
         (pipelines sub).
Proof.
  pose proof (handleCreate_run metadata steps sub) as Hr.
  destruct (keeps_createTopics steps sub) as [Hp Hk].
  destruct (outcome (createTopics steps sub)) as [e|[]].
  { destruct Hr as (_ & -> & _). by left. }
  cbn zeta in Hr. destruct Hr as (_ & -> & _).
  set (trs := stepTransformers metadata steps (kafkaProperties sub)).
  destruct (decide (length trs = length steps)) as [Hlen|Hlen].
  - destruct (pipelines sub !! md_id metadata) as [previous|] eqn:Hprev.
    + rewrite (registerAndStart_existing _ _ _ _ previous) by (by rewrite ?Hp). by left.
    + pose proof (registerAndStart_fresh metadata steps trs (after (createTopics steps sub))
                    Hlen) as Hrs.
      rewrite Hp in Hrs. specialize (Hrs Hprev). cbn zeta in Hrs.
      match type of Hrs with context [sforEach trs start ?st] => set (sub1 := st) in * end.
      destruct (startAll_run trs sub1) as (_ & _ & Hpip & _). cbn zeta in Hpip.
      destruct (outcome (sforEach trs start sub1)).
      * destruct Hrs as (_ & -> & _). right. by rewrite Hpip.
      * destruct Hrs as (_ & -> & _). rewrite pipelineUpdateEvent_run. right.
        cbn [after pipelines]. by rewrite Hpip.
  - unfold registerAndStart. rewrite decide_True by done.
    rewrite pipelineUpdateEvent_run. by left.
Qed.

(** X25: create, then delete.  Whatever happened during [handleCreate], a
    [handleDelete] for the same pipeline leaves the registered pipelines as
    they were before the create, without the id; for an id that was not
    registered before, exactly as they were. *)
Theorem handleCreate_then_handleDelete metadata steps sub :
  pipelines (after (handleDelete metadata (after (handleCreate metadata steps sub))))
    = delete (md_id metadata) (pipelines sub)
  /\ (pipelines sub !! md_id metadata = None ->
      pipelines (after (handleDelete metadata (after (handleCreate metadata steps sub))))
      = pipelines sub).
Proof.
  rewrite handleDelete_pipelines.
  assert (Hd : delete (md_id metadata) (pipelines (after (handleCreate metadata steps sub)))
               = delete (md_id metadata) (pipelines sub)).
  { destruct (handleCreate_pipelines metadata steps sub) as [-> | ->]; [done|].
    apply delete_insert_eq. }
  rewrite Hd. split; [done|]. intros Hfresh. by apply delete_id.
Qed.



Lemma handleUpdate_run u steps sub :
  let metadata := {| md_id := um_uid u; md_name := um_pipeline u;
                     md_version := um_version u |} in
  scalls (handleUpdate u steps sub)
    = match um_op u with
      | Create => scalls (handleCreate metadata steps sub)
      | Delete => scalls (handleDelete metadata sub)
      | OtherOperation _ => []
      end
  /\ pipelines (after (handleUpdate u steps sub))
     = match um_op u with
       | Create => pipelines (after (handleCreate metadata steps sub))
       | Delete => pipelines (after (handleDelete metadata sub))
       | OtherOperation _ => pipelines sub
       end.
Proof.
  unfold handleUpdate. cbn zeta.
  rewrite (sbind_inr (slog _) _ sub tt eq_refl).
  cbn [scalls after slog app]. by destruct (um_op u).
Qed.


(** X27: an update is about one pipeline.  Whatever the operation and
    however it ends, handling an update leaves the entries of the other
    pipelines as they were. *)
Theorem handleUpdate_other_pipelines u steps sub id :
  id <> um_uid u ->
  pipelines (after (handleUpdate u steps sub)) !! id = pipelines sub !! id.
Proof.
  intros Hne. destruct (handleUpdate_run u steps sub) as [_ ->]. cbn zeta.
  destruct (um_op u); [| |done].
  - match goal with |- context [handleCreate ?m _ _] =>
      destruct (handleCreate_pipelines m steps sub) as [-> | ->] end; [done|].
    by rewrite lookup_insert_ne.
  - rewrite handleDelete_pipelines. by rewrite lookup_delete_ne.
Qed.

End Subscriber.

Arguments mkSRes {KafkaProperties Env A} _ _ _ _.
Arguments outcome {KafkaProperties Env A} _.
Arguments after {KafkaProperties Env A} _.
Arguments scalls {KafkaProperties Env A} _.
Arguments slogs {KafkaProperties Env A} _.

(** * A cluster in memory

    Properties are lists of settings, the application id being one more
    setting; the digest is left out (the identity stands for it).  The
    cluster knows the topics that exist, whether an admin client can be had
    and the application ids of the transformers that do not start. *)

Definition Properties := list (string * string).

Definition withAppId (properties : Properties) (name : string) : Properties :=
  ("application.id", name) :: properties.

Definition plainDigest (s : string) : string := s.

Record Kafka :=
  { topics : gset string; adminDown : bool; notStarting : list Properties }.

#[global] Instance Kafka_cluster : Cluster (KafkaProperties := Properties) Kafka :=
  {| admin_create _ k :=
       (k, if adminDown k then Some "no admin client" else None);
     admin_createTopics names _ _ k :=
       ({| topics := topics k ∪ names; adminDown := adminDown k;
           notStarting := notStarting k |},
        inr ((fun name => (name, if decide (name ∈ topics k) then TopicExists
                                 else TopicCreated)) <$> elements names));
     client_pipelineUpdateEvent _ k := (k, None);
     transformer_start tr k :=
       (k, match tr with
           | Chainer properties _ _ _ _ _ | Joiner properties _ _ _ _ _ =>
               if decide (properties ∈ notStarting k) then Some "stream not started"
               else None
           end);
     parallel_stop _ k := (k, None) |}.

Definition properties0 : Properties := [("bootstrap.servers", "kafka:9092")].

Definition kafka0 : Kafka :=
  {| topics := {["seldon.model.a.outputs"]}; adminDown := false; notStarting := [] |}.

Definition kafkaDown : Kafka :=
  {| topics := ∅; adminDown := true; notStarting := [] |}.

Definition subscriber0 : Subscriber :=
  {| kafkaProperties := properties0; pipelines := ∅; cluster := kafka0 |}.

Definition subscriberDown : Subscriber :=
  {| kafkaProperties := properties0; pipelines := ∅; cluster := kafkaDown |}.

Definition pipe1 : PipelineMetadata := {| md_id := "uid-1"; md_name := "pipe"; md_version := 1 |}.

(** A chain from the outputs of model a, and a join of two tensors of models
    a and b. *)
Definition chainStep : PipelineStepUpdate :=
  {| sourcesList := ["seldon.model.a.outputs"];
     sink := "seldon.model.b.inputs";
     tensorMapMap := ∅ |}.

Definition joinStep : PipelineStepUpdate :=
  {| sourcesList := ["seldon.model.a.outputs.x"; "seldon.model.b.outputs.y"];
     sink := "seldon.pipeline.pipe.outputs";
     tensorMapMap := ∅ |}.


Definition chainer1 : Transformer :=
  Chainer (withAppId properties0
             "chainer:seldon.model.a.outputs:seldon.model.b.inputs")
          "seldon.model.a.outputs" "seldon.model.b.inputs" None "pipe" ∅.

(** The subscriber with the pipeline registered already. *)
Definition subscriber1 : Subscriber :=
  {| kafkaProperties := properties0;
     pipelines := {[ "uid-1" := {| tp_metadata := pipe1; tp_transformers := [chainer1] |} ]};
     cluster := kafka0 |}.

Example parseSource_examples :
  parseSource "seldon.model.a.outputs" = ("seldon.model.a.outputs", None)
  /\ parseSource "seldon.model.a.outputs.x" = ("seldon.model.a.outputs", Some "x")
  /\ parseSource "topic" = ("", None)
  /\ parseSource "topic." = ("", None)
  /\ parseSource "inputs" = ("", None)
  /\ parseSource ".inputs" = (".inputs", None).
Proof. by vm_compute. Qed.

Example parseSources_examples :
  parseSources [] = SourceProjection_Empty
  /\ parseSources ["a.outputs"; "a.outputs"] = SourceProjection_Single "a.outputs"
  /\ parseSources ["a.outputs.x"; "a.outputs"; "a.outputs.y"]
     = SourceProjection_SingleSubset "a.outputs" {["x"; "y"]}
  /\ parseSources ["a.outputs"; "b.outputs"] = SourceProjection_Many {["a.outputs"; "b.outputs"]}
  /\ parseSources ["a.outputs.x"; "b.outputs"]
     = SourceProjection_ManySubsets {["a.outputs"; "b.outputs"]}
         {[ "a.outputs" := {["x"]}; "b.outputs" := ∅ ]}.
Proof. by vm_compute. Qed.

Example transformerFor_chainStep :
  transformerFor withAppId plainDigest "pipe" (sourcesList chainStep) (tensorMapMap chainStep)
                 (sink chainStep) properties0 = Some chainer1.
Proof. by vm_compute. Qed.

(** The same sources in another order, one of them twice. *)
Lemma parseSources_same_elements_witness :
  parseSources ["a.outputs.x"; "b.outputs.y"]
  = parseSources ["b.outputs.y"; "a.outputs.x"; "b.outputs.y"].
Proof.
  apply (parseSources_same_elements ["a.outputs.x"; "b.outputs.y"]
           ["b.outputs.y"; "a.outputs.x"; "b.outputs.y"]).
  intros s. rewrite !elem_of_cons, !elem_of_nil. tauto.
Defined.

(** No admin client: nothing registered, nothing started, nothing reported. *)
Lemma handleCreate_topics_failure_witness :
  outcome (handleCreate withAppId plainDigest pipe1 [chainStep] subscriberDown)
    = inl "no admin client"
  /\ pipelines (after (handleCreate withAppId plainDigest pipe1 [chainStep] subscriberDown)) = ∅
  /\ omap startedBy (scalls (handleCreate withAppId plainDigest pipe1 [chainStep] subscriberDown))
     = []
  /\ omap eventOf (scalls (handleCreate withAppId plainDigest pipe1 [chainStep] subscriberDown))
     = [].
Proof.
  apply (handleCreate_topics_failure withAppId plainDigest pipe1 [chainStep] subscriberDown
           "no admin client").
  by vm_compute.
Defined.


(** The pipeline is registered already: the second create changes nothing. *)
Lemma handleCreate_existing_witness :
  pipelines (after (handleCreate withAppId plainDigest pipe1 [joinStep] subscriber1))
    = pipelines subscriber1
  /\ omap startedBy (scalls (handleCreate withAppId plainDigest pipe1 [joinStep] subscriber1)) = []
  /\ omap eventOf (scalls (handleCreate withAppId plainDigest pipe1 [joinStep] subscriber1)) = [].
Proof.
  apply (handleCreate_existing withAppId plainDigest pipe1 [joinStep] subscriber1).
  - apply list.Forall_cons. split; [done | apply Forall_nil_2].
  - eexists. by vm_compute.
Defined.

(** A new pipeline of one chain: it is registered as [subscriber1] has it. *)
Lemma handleCreate_fresh_witness :
  pipelines (after (handleCreate withAppId plainDigest pipe1 [chainStep] subscriber0))
    = pipelines subscriber1.
Proof.
  destruct (handleCreate_fresh withAppId plainDigest pipe1 [chainStep] subscriber0)
    as (Hp & _).
  - apply list.Forall_cons. split; [done | apply Forall_nil_2].
  - by vm_compute.
  - by vm_compute.
  - rewrite Hp. clear. by vm_compute.
Defined.

(** The topics of the chain are asked for, the sink among them. *)
Lemma createTopics_covers_step_witness :
  inputTopicsOf chainer1 ⊆ uniqueTopicNames [joinStep; chainStep]
  /\ sink chainStep ∈ uniqueTopicNames [joinStep; chainStep].
Proof.
  destruct (createTopics_covers_step withAppId plainDigest [joinStep; chainStep] chainStep
              "pipe" properties0 chainer1) as [Hin Hsink].
  - apply elem_of_cons. right. apply list_elem_of_here.
  - by vm_compute.
  - split; [done|]. apply Hsink. exists "seldon.model.b". by left.
Defined.

(** An update for "uid-2" leaves the pipeline "uid-1" of [subscriber1]. *)
Lemma handleUpdate_other_pipelines_witness :
  pipelines (after (handleUpdate withAppId plainDigest
                      {| um_op := Delete; um_pipeline := "other"; um_version := 3;
                         um_uid := "uid-2" |} [] subscriber1)) !! "uid-1"
  = Some {| tp_metadata := pipe1; tp_transformers := [chainer1] |}.
Proof.
  rewrite (handleUpdate_other_pipelines withAppId plainDigest
             {| um_op := Delete; um_pipeline := "other"; um_version := 3; um_uid := "uid-2" |}
             [] subscriber1 "uid-1") by done.
  by vm_compute.
Defined.

End Dataflow.
